(** * Dominant colour by histogram binning: a model of [dominant_color_wx.py]

    The development embeds [dominant_color_histogram] (lines 6-40 of the
    source) and settles the properties its specification states about it.
    Of the window class that surrounds the function, the computation of
    the preview size in [on_open] (lines 126-131) is embedded as well; the
    rest of the class is calls into the toolkit and is not modelled. *)

From Stdlib Require Import String QArith Qround.
From Stdlib Require Import ZArith List Lia Bool Permutation Sorted.
Import ListNotations.
Local Open Scope Z_scope.

(** ** Exceptions

    A Python exception is identified by the name of its class.  The two
    classes below are the ones the function can raise on a decoded image. *)

Inductive exn : Type :=
| ZeroDivisionError
| ValueError (msg : string).

Definition exn_name (e : exn) : string :=
  match e with
  | ZeroDivisionError => "ZeroDivisionError"
  | ValueError _ => "ValueError"
  end.

Inductive result (A : Type) : Type :=
| Ok (a : A)
| Raise (e : exn).
Arguments Ok {A} a.
Arguments Raise {A} e.

Definition bind {A B : Type} (r : result A) (k : A -> result B) : result B :=
  match r with
  | Ok a => k a
  | Raise e => Raise e
  end.

Notation "x <- c ;; k" := (bind c (fun x => k))
  (at level 61, c at next level, right associativity).

(** ** binary64 arithmetic

    A finite double is kept as [mant * 2 ^ expo].  The function needs three
    operations on doubles: the conversion of an integer, the division and
    the conversion back to an integer.  The division rounds the exact
    quotient to 53 significant bits, ties to even; exponent overflow and
    subnormal results are outside what the model covers (the quotients of
    the function lie between 2^-21 and 2^29 for the bin counts treated
    below). *)

Module Float64.

Record t : Type := mk { mant : Z; expo : Z }.

(** Exact for [|n| < 2^53], which holds for channel values, for bin counts
    and for channel sums of fewer than 2^45 pixels. *)
Definition of_int (n : Z) : t := mk n 0.

(** [p / q] rounded to the nearest integer, halves to the even neighbour;
    [0 <= p] and [0 < q]. *)
Definition round_half_even (p q : Z) : Z :=
  let '(f, r) := Z.div_eucl p q in
  match 2 * r ?= q with
  | Lt => f
  | Gt => f + 1
  | Eq => if Z.even f then f else f + 1
  end.

(** The integer [E] with [2^E <= p / q < 2^(E+1)], for [0 < p] and [0 < q]. *)
Definition ilog2_ratio (p q : Z) : Z :=
  let d := Z.log2 p - Z.log2 q in
  let above := if 0 <=? d then q * 2 ^ d <=? p else q <=? p * 2 ^ (- d) in
  if above then d else d - 1.

(** The quotient of two positive integers, rounded to 53 bits. *)
Definition div_pos (p q : Z) : t :=
  let k := 52 - ilog2_ratio p q in
  let m := if 0 <=? k then round_half_even (p * 2 ^ k) q
           else round_half_even p (q * 2 ^ (- k)) in
  mk m (- k).

(** [x / y] for a non-zero [y]. *)
Definition div (x y : t) : t :=
  let s := Z.sgn (mant x) * Z.sgn (mant y) in
  let p := Z.abs (mant x) in
  let q := Z.abs (mant y) in
  let d := expo x - expo y in
  if p =? 0 then mk 0 0
  else
    let r := if 0 <=? d then div_pos (p * 2 ^ d) q
             else div_pos p (q * 2 ^ (- d)) in
    mk (s * mant r) (expo r).

(** The C conversion to a signed integer: truncation toward zero. *)
Definition to_int (x : t) : Z :=
  if 0 <=? expo x then mant x * 2 ^ expo x
  else Z.quot (mant x) (2 ^ (- expo x)).

End Float64.

(** ** The quantizer (lines 14-27) *)

(** A pixel is a row of the [uint8] array: three channel values. *)
Definition pixel : Type := (Z * Z * Z)%type.

Definition u8 (v : Z) : Prop := 0 <= v <= 255.

Definition valid_pixel (p : pixel) : Prop :=
  let '(r, g, b) := p in u8 r /\ u8 g /\ u8 b.

(** [np.clip(x, lo, hi)] is [minimum(maximum(x, lo), hi)]. *)
Definition clip (x lo hi : Z) : Z := Z.min (Z.max x lo) hi.

(** Line 14: [factor = 256 / bins_per_channel], Python's true division of
    two integers. *)
Definition factor (bins_per_channel : Z) : result Float64.t :=
  if bins_per_channel =? 0 then Raise ZeroDivisionError
  else Ok (Float64.div (Float64.of_int 256) (Float64.of_int bins_per_channel)).

(** Lines 15-21 for one channel value: the division by [factor], the
    conversion [astype(int)] and the clip. *)
Definition channel_bin (f : Float64.t) (bins_per_channel v : Z) : Z :=
  clip (Float64.to_int (Float64.div (Float64.of_int v) f))
       0 (bins_per_channel - 1).

(** The closed form of the above for a non-zero bin count. *)
Definition quantize (bins_per_channel v : Z) : Z :=
  channel_bin (Float64.div (Float64.of_int 256) (Float64.of_int bins_per_channel))
              bins_per_channel v.

(** The bin counts the window lets through: [wx.SpinCtrl(min=4, max=128)]
    on line 84. *)
Definition supported (bins_per_channel : Z) : Prop :=
  4 <= bins_per_channel <= 128.

(** ** numpy's [int64] arithmetic

    [astype(int)] yields numpy's default integer, 64 bits and signed, and
    the products and sums of lines 23-27 are taken in that type: they wrap
    around silently.  The operand [bins_per_channel ** 2] is a Python
    integer that numpy converts to that type first; the model covers the
    bin counts for which it fits, that is [|bins_per_channel| < 3037000500]
    (beyond, the conversion is refused with an [OverflowError]), and the
    theorems about a whole call bound the bin count accordingly. *)

Definition wrap64 (x : Z) : Z := (x + 2 ^ 63) mod 2 ^ 64 - 2 ^ 63.

Definition mul64 (x y : Z) : Z := wrap64 (x * y).
Definition add64 (x y : Z) : Z := wrap64 (x + y).

(** Lines 23-27. *)
Definition bin_index (bins_per_channel : Z) (bins : Z * Z * Z) : Z :=
  let '(r_bin, g_bin, b_bin) := bins in
  add64 (add64 (mul64 r_bin (bins_per_channel ^ 2))
               (mul64 g_bin bins_per_channel))
        b_bin.

(** Lines 32-34: [//] and [%] round toward minus infinity, as [Z.div] and
    [Z.modulo] do. *)
Definition decode (bins_per_channel dom_bin : Z) : Z * Z * Z :=
  (dom_bin / bins_per_channel ^ 2,
   (dom_bin / bins_per_channel) mod bins_per_channel,
   dom_bin mod bins_per_channel).

(** ** The selector (lines 29-30) *)

Fixpoint insert (x : Z) (l : list Z) : list Z :=
  match l with
  | [] => [x]
  | y :: l' =>
      if x <? y then x :: l
      else if x =? y then l
      else y :: insert x l'
  end.

(** First output of [np.unique]: the distinct values, ascending. *)
Definition unique_values (xs : list Z) : list Z := fold_right insert [] xs.

Definition count (x : Z) (xs : list Z) : Z :=
  Z.of_nat (count_occ Z.eq_dec xs x).

(** [np.unique(xs, return_counts=True)]. *)
Definition np_unique (xs : list Z) : list Z * list Z :=
  let us := unique_values xs in (us, map (fun u => count u xs) us).

(** The scan of [np.argmax]: the best position so far is replaced only by
    a strictly greater value. *)
Fixpoint argmax_from (l : list Z) (i best : nat) (best_v : Z) : nat :=
  match l with
  | [] => best
  | x :: l' =>
      if best_v <? x then argmax_from l' (S i) i x
      else argmax_from l' (S i) best best_v
  end.

Definition np_argmax (l : list Z) : result nat :=
  match l with
  | [] => Raise (ValueError "attempt to get argmax of an empty sequence")
  | x :: l' => Ok (argmax_from l' 1 0 x)
  end.

Definition select (bin_indices : list Z) : result Z :=
  let '(unique_bins, counts) := np_unique bin_indices in
  i <- np_argmax counts ;;
  Ok (nth i unique_bins 0).

(** ** The refiner (lines 32-40) *)

Definition rgb : Type := (Z * Z * Z)%type.

Definition red (p : pixel) : Z := fst (fst p).
Definition green (p : pixel) : Z := snd (fst p).
Definition blue (p : pixel) : Z := snd p.

Definition pixel_bins (f : Float64.t) (bins_per_channel : Z) (p : pixel)
  : Z * Z * Z :=
  (channel_bin f bins_per_channel (red p),
   channel_bin f bins_per_channel (green p),
   channel_bin f bins_per_channel (blue p)).

Definition bins_eqb (a b : Z * Z * Z) : bool :=
  let '(ar, ag, ab) := a in
  let '(br, bg, bb) := b in
  (ar =? br) && (ag =? bg) && (ab =? bb).

(** Lines 36-37: the pixels whose three channel bins are those of the
    dominant bin. *)
Definition cluster_pixels (f : Float64.t) (bins_per_channel dom_bin : Z)
  (pixels : list pixel) : list pixel :=
  filter (fun p => bins_eqb (pixel_bins f bins_per_channel p)
                            (decode bins_per_channel dom_bin))
         pixels.

Definition sum (l : list Z) : Z := fold_right Z.add 0 l.

(** One column of [mean(axis=0)] followed by [int(x)].  The mean of no
    value is NaN, which [int] refuses; otherwise the column is summed in
    binary64 (exactly, below 2^53) and divided by the number of rows. *)
Definition mean_int (column : list Z) : result Z :=
  match column with
  | [] => Raise (ValueError "cannot convert float NaN to integer")
  | _ =>
      Ok (Float64.to_int
            (Float64.div (Float64.of_int (sum column))
                         (Float64.of_int (Z.of_nat (length column)))))
  end.

Definition refine (f : Float64.t) (bins_per_channel dom_bin : Z)
  (pixels : list pixel) : result rgb :=
  let cluster := cluster_pixels f bins_per_channel dom_bin pixels in
  r <- mean_int (map red cluster) ;;
  g <- mean_int (map green cluster) ;;
  b <- mean_int (map blue cluster) ;;
  Ok (r, g, b).

(** ** The function on a pixel array (lines 12-40) *)

Definition bin_indices (f : Float64.t) (bins_per_channel : Z)
  (pixels : list pixel) : list Z :=
  map (fun p => bin_index bins_per_channel (pixel_bins f bins_per_channel p))
      pixels.

Definition dominant_color_of_pixels (pixels : list pixel)
  (bins_per_channel : Z) : result rgb :=
  f <- factor bins_per_channel ;;
  dom_bin <- select (bin_indices f bins_per_channel pixels) ;;
  refine f bins_per_channel dom_bin pixels.

(** ** The function on an image (lines 6-40)

    The decoded image is its raster of pixels.  The Gaussian filter of
    line 9 belongs to the imaging library; it is a parameter here. *)

Section Image.

Variable GaussianBlur : list pixel -> list pixel.

Definition dominant_color_histogram (img : list pixel)
  (bins_per_channel : Z) (blur : bool) : result rgb :=
  let img := if blur then GaussianBlur img else img in
  dominant_color_of_pixels img bins_per_channel.

End Image.

(** ** The quantizer as the specification words it

    [floor(v / (256 / B))] over the rationals, then the clamp. *)
Definition quantizer_spec (bins_per_channel v : Z) : Z :=
  clip (Qfloor (inject_Z v / (inject_Z 256 / inject_Z bins_per_channel))%Q)
       0 (bins_per_channel - 1).

(** The variant the specification rules out: the bin width rounded to an
    integer before the division. *)
Definition quantizer_int_width (bins_per_channel v : Z) : Z :=
  clip (v / (256 / bins_per_channel)) 0 (bins_per_channel - 1).

(** The 3-D bin lattice [[0,B)^3]. *)
Definition in_lattice (bins_per_channel : Z) (bins : Z * Z * Z) : Prop :=
  let '(r_bin, g_bin, b_bin) := bins in
  0 <= r_bin < bins_per_channel /\
  0 <= g_bin < bins_per_channel /\
  0 <= b_bin < bins_per_channel.

(** Enumeration of an integer interval, for the checks by computation. *)
Definition zrange (lo : Z) (n : nat) : list Z :=
  map (fun i => lo + Z.of_nat i) (seq 0 n).

Definition quantizer_agrees (bins_per_channel : Z) : bool :=
  match factor bins_per_channel with
  | Ok f =>
      forallb (fun v => channel_bin f bins_per_channel v
                        =? quantizer_spec bins_per_channel v)
              (zrange 0 256)
  | Raise _ => false
  end.

(** The contract of [np.argmax] on a non-empty array: the first position
    that holds the maximum. *)
Definition first_maximum (cs : list Z) (i : nat) : Prop :=
  (i < length cs)%nat /\
  (forall j, (j < length cs)%nat -> nth j cs 0 <= nth i cs 0) /\
  (forall j, (j < i)%nat -> nth j cs 0 < nth i cs 0).

(** ** A call of the function over the contracts of the library

    [np.unique] and [np.argmax] are library calls.  The relation below
    follows lines 6-40 and lets each of the two return any value that its
    documentation allows: [np.unique] the sorted distinct values with the
    number of times each occurs, [np.argmax] the first position of a
    maximum, or a [ValueError] on an empty array.  The filter of line 9 is
    a function of the image. *)

Definition unique_contract (xs us cs : list Z) : Prop :=
  StronglySorted Z.lt us /\
  (forall x, In x us <-> In x xs) /\
  cs = map (fun u => count u xs) us.

Inductive invocation (GaussianBlur : list pixel -> list pixel)
  (img : list pixel) (bins_per_channel : Z) (blur : bool)
  : result rgb -> Prop :=
| call_without_factor (e : exn) :
    factor bins_per_channel = Raise e ->
    invocation GaussianBlur img bins_per_channel blur (Raise e)
| call_without_pixels (f : Float64.t) (us cs : list Z) :
    factor bins_per_channel = Ok f ->
    unique_contract
      (bin_indices f bins_per_channel (if blur then GaussianBlur img else img))
      us cs ->
    cs = [] ->
    invocation GaussianBlur img bins_per_channel blur
      (Raise (ValueError "attempt to get argmax of an empty sequence"))
| call_with_dominant_bin (f : Float64.t) (us cs : list Z) (i : nat) :
    factor bins_per_channel = Ok f ->
    unique_contract
      (bin_indices f bins_per_channel (if blur then GaussianBlur img else img))
      us cs ->
    first_maximum cs i ->
    invocation GaussianBlur img bins_per_channel blur
      (refine f bins_per_channel (nth i us 0)
         (if blur then GaussianBlur img else img)).

(** ** The preview of [on_open] (lines 125-131)

    The handler scales the opened image into a box of 300 by 300 pixels.
    The scale factor and the two products are doubles, so the model adds
    the multiplication and the comparison to the division above. *)

Module Float64Ops.
Import Float64.

(** [x * y], the exact product rounded to 53 bits. *)
Definition mul (x y : t) : t :=
  let s := Z.sgn (mant x) * Z.sgn (mant y) in
  let p := Z.abs (mant x) * Z.abs (mant y) in
  let e := expo x + expo y in
  if p =? 0 then mk 0 0
  else
    let r := if 0 <=? e then div_pos (p * 2 ^ e) 1
             else div_pos p (2 ^ (- e)) in
    mk (s * mant r) (expo r).

(** [x < y], on the two values brought to the lower exponent. *)
Definition ltb (x y : t) : bool :=
  let e := Z.min (expo x) (expo y) in
  mant x * 2 ^ (expo x - e) <? mant y * 2 ^ (expo y - e).

End Float64Ops.

(** Python's [min(x, y)]: the second argument only if it is smaller. *)
Definition py_min (x y : Float64.t) : Float64.t :=
  if Float64Ops.ltb y x then y else x.

(** Lines 126-131: from the size [(iw, ih)] of the opened image to the
    size [(new_w, new_h)] handed to [img.Scale]. *)
Definition preview_size (iw ih : Z) : result (Z * Z) :=
  if iw =? 0 then Raise ZeroDivisionError
  else if ih =? 0 then Raise ZeroDivisionError
  else
    let scale := py_min (Float64.div (Float64.of_int 300) (Float64.of_int iw))
                        (Float64.div (Float64.of_int 300) (Float64.of_int ih)) in
    Ok (Float64.to_int (Float64Ops.mul (Float64.of_int iw) scale),
        Float64.to_int (Float64Ops.mul (Float64.of_int ih) scale)).

(** What [Float64.ilog2_ratio] computes: the exponent [E] with
    [2^E <= p / q < 2^(E+1)], written without fractions. *)
Definition ratio_bracket (p q E : Z) : Prop :=
  (0 <= E -> q * 2 ^ E <= p < q * 2 ^ (E + 1)) /\
  (E < 0 -> q <= p * 2 ^ (- E) /\ p * 2 ^ (- E - 1) < q).

(** * Properties *)

(** ** Facts about the binary64 model *)

Module Float64Facts.
Import Float64.

Lemma round_half_even_eq (p q : Z) :
  round_half_even p q =
  match 2 * (p mod q) ?= q with
  | Lt => p / q
  | Gt => p / q + 1
  | Eq => if Z.even (p / q) then p / q else p / q + 1
  end.
Proof.
  unfold round_half_even, Z.div, Z.modulo.
  destruct (Z.div_eucl p q). reflexivity.
Qed.

Lemma round_half_even_nonneg (p q : Z) :
  0 <= p -> 0 < q -> 0 <= round_half_even p q.
Proof.
  intros Hp Hq. rewrite round_half_even_eq.
  assert (0 <= p / q) by (apply Z.div_pos; lia).
  destruct (2 * (p mod q) ?= q); try lia.
  destruct (Z.even (p / q)); lia.
Qed.

Lemma round_half_even_exact (c q : Z) :
  0 < q -> round_half_even (c * q) q = c.
Proof.
  intros Hq. rewrite round_half_even_eq.
  rewrite Z.mod_mul, Z.div_mul by lia.
  replace (2 * 0) with 0 by lia.
  destruct (Z.compare_spec 0 q); lia.
Qed.

Lemma round_half_even_le (p q n : Z) :
  0 <= p -> 0 < q -> p <= n * q -> round_half_even p q <= n.
Proof.
  intros Hp Hq Hle.
  destruct (Z.eq_dec p (n * q)) as [-> | Hne].
  - rewrite round_half_even_exact; lia.
  - assert (p / q < n) by (apply Z.div_lt_upper_bound; lia).
    rewrite round_half_even_eq.
    destruct (2 * (p mod q) ?= q); try lia.
    destruct (Z.even (p / q)); lia.
Qed.

(** [ilog2_ratio p q] brackets the quotient between two powers of two. *)
Lemma ilog2_ratio_spec (p q : Z) :
  0 < p -> 0 < q ->
  let E := ilog2_ratio p q in
  (0 <= E -> q * 2 ^ E <= p < q * 2 ^ (E + 1)) /\
  (E < 0 -> q <= p * 2 ^ (- E) /\ p * 2 ^ (- E - 1) < q).
Proof.
  intros Hp Hq.
  destruct (Z.log2_spec p Hp) as [Hp1 Hp2].
  destruct (Z.log2_spec q Hq) as [Hq1 Hq2].
  pose proof (Z.log2_nonneg p) as Lp. pose proof (Z.log2_nonneg q) as Lq.
  unfold ilog2_ratio.
  set (lp := Z.log2 p) in *. set (lq := Z.log2 q) in *.
  destruct (Z.leb_spec 0 (lp - lq)) as [Hd | Hd].
  - assert (Elp : lp = lq + (lp - lq)) by lia.
    assert (P1 : 2 ^ lp = 2 ^ lq * 2 ^ (lp - lq))
      by (rewrite <- Z.pow_add_r by lia; f_equal; lia).
    assert (0 < 2 ^ (lp - lq)) by (apply Z.pow_pos_nonneg; lia).
    assert (0 < 2 ^ lq) by (apply Z.pow_pos_nonneg; lia).
    destruct (Z.leb_spec (q * 2 ^ (lp - lq)) p) as [Ht | Ht]; cbv zeta.
    + split; [intros _ | lia]. split; [exact Ht |].
      rewrite (Z.pow_add_r 2 (lp - lq) 1) by lia. change (2 ^ 1) with 2.
      replace (Z.succ lp) with (lp + 1) in Hp2 by lia.
      rewrite Z.pow_add_r in Hp2 by lia. change (2 ^ 1) with 2 in Hp2.
      nia.
    + replace (Z.succ lq) with (lq + 1) in Hq2 by lia.
      rewrite Z.pow_add_r in Hq2 by lia. change (2 ^ 1) with 2 in Hq2.
      split.
      * intros HE. replace (lp - lq - 1 + 1) with (lp - lq) by lia.
        split; [| exact Ht].
        assert (P2 : 2 ^ (lp - lq) = 2 * 2 ^ (lp - lq - 1))
          by (rewrite <- Z.pow_succ_r by lia; f_equal; lia).
        assert (0 < 2 ^ (lp - lq - 1)) by (apply Z.pow_pos_nonneg; lia).
        nia.
      * intros HE. assert (Ed : lp - lq = 0) by lia.
        rewrite Ed in *. change (2 ^ 0) with 1 in *.
        replace (- (0 - 1)) with 1 by lia.
        replace (- (0 - 1) - 1) with 0 by lia.
        change (2 ^ 1) with 2. change (2 ^ 0) with 1. nia.
  - assert (P1 : 2 ^ lq = 2 ^ lp * 2 ^ (- (lp - lq)))
      by (rewrite <- Z.pow_add_r by lia; f_equal; lia).
    assert (0 < 2 ^ (- (lp - lq))) by (apply Z.pow_pos_nonneg; lia).
    assert (0 < 2 ^ lp) by (apply Z.pow_pos_nonneg; lia).
    assert (P2 : 2 ^ (- (lp - lq)) = 2 * 2 ^ (- (lp - lq) - 1))
      by (rewrite <- Z.pow_succ_r by lia; f_equal; lia).
    assert (0 < 2 ^ (- (lp - lq) - 1)) by (apply Z.pow_pos_nonneg; lia).
    replace (Z.succ lq) with (lq + 1) in Hq2 by lia.
    rewrite Z.pow_add_r in Hq2 by lia. change (2 ^ 1) with 2 in Hq2.
    replace (Z.succ lp) with (lp + 1) in Hp2 by lia.
    rewrite Z.pow_add_r in Hp2 by lia. change (2 ^ 1) with 2 in Hp2.
    destruct (Z.leb_spec q (p * 2 ^ (- (lp - lq)))) as [Ht | Ht]; cbv zeta.
    + split; [lia | intros _]. split; [exact Ht |]. nia.
    + split; [lia | intros _].
      replace (- (lp - lq - 1)) with (- (lp - lq) + 1) by lia.
      replace (- (lp - lq) + 1 - 1) with (- (lp - lq)) by lia.
      rewrite Z.pow_add_r by lia. change (2 ^ 1) with 2.
      split; [nia | exact Ht].
Qed.

(** The division of two positive integers, as [div] computes it. *)
Lemma div_of_int_pos (s n : Z) :
  0 < s -> 0 < n ->
  div (of_int s) (of_int n) =
  mk (round_half_even (s * 2 ^ (52 - ilog2_ratio s n)) n)
     (- (52 - ilog2_ratio s n)) \/
  52 < ilog2_ratio s n.
Proof.
  intros Hs Hn. unfold div, of_int. cbn [mant expo].
  rewrite (Z.abs_eq s), (Z.abs_eq n) by lia.
  rewrite (Z.sgn_pos s), (Z.sgn_pos n) by lia.
  destruct (Z.eqb_spec s 0) as [? | _]; [lia |].
  change (0 - 0) with 0. change (0 <=? 0) with true. cbv iota.
  change (2 ^ 0) with 1. rewrite !Z.mul_1_r.
  unfold div_pos. cbn [mant expo].
  destruct (Z.leb_spec 0 (52 - ilog2_ratio s n)) as [Hk | Hk]; [left | right; lia].
  rewrite Z.mul_1_l. reflexivity.
Qed.

Lemma to_int_scaled (m k : Z) :
  0 <= m -> 0 <= k -> to_int (mk m (- k)) = m / 2 ^ k.
Proof.
  intros Hm Hk. unfold to_int. cbn [mant expo].
  destruct (Z.leb_spec 0 (- k)) as [H0 | H0].
  - assert (k = 0) by lia. subst k. change (- 0) with 0.
    change (2 ^ 0) with 1. rewrite Z.div_1_r. lia.
  - rewrite Z.opp_involutive. apply Z.quot_div_nonneg; [lia |].
    apply Z.pow_pos_nonneg; lia.
Qed.

(** A quotient that does not exceed an integer below 2^53 stays at or
    below it through the rounding and the truncation. *)
Lemma to_int_div_bounded (s n bound : Z) :
  0 <= s -> 0 < n -> 0 <= bound < 2 ^ 53 -> s <= bound * n ->
  0 <= to_int (div (of_int s) (of_int n)) <= bound.
Proof.
  intros Hs Hn Hb Hle.
  destruct (Z.eq_dec s 0) as [-> | Hs0].
  - unfold div, of_int, to_int. cbn. lia.
  - assert (Hs' : 0 < s) by lia.
    destruct (ilog2_ratio_spec s n Hs' Hn) as [Hpos _].
    assert (HE : ilog2_ratio s n <= 52).
    { destruct (Z_le_gt_dec (ilog2_ratio s n) 52) as [? | Hgt]; [assumption |].
      exfalso. destruct Hpos as [Hlow _]; [lia |].
      assert (2 ^ 53 <= 2 ^ ilog2_ratio s n)
        by (apply Z.pow_le_mono_r; lia).
      nia. }
    destruct (div_of_int_pos s n Hs' Hn) as [-> | ?]; [| lia].
    set (k := 52 - ilog2_ratio s n) in *.
    assert (Hk : 0 <= k) by (unfold k; lia).
    assert (Hp2 : 0 < 2 ^ k) by (apply Z.pow_pos_nonneg; lia).
    assert (Hm0 : 0 <= round_half_even (s * 2 ^ k) n)
      by (apply round_half_even_nonneg; nia).
    assert (Hm1 : round_half_even (s * 2 ^ k) n <= bound * 2 ^ k)
      by (apply round_half_even_le; nia).
    rewrite to_int_scaled by assumption.
    split.
    + apply Z.div_pos; lia.
    + apply Z.div_le_upper_bound; [assumption |]. nia.
Qed.

(** The mean of equal values is that value: the quotient [c * n / n] is
    representable, so neither the rounding nor the truncation moves it. *)
Lemma to_int_div_exact (c n : Z) :
  0 <= c < 2 ^ 53 -> 0 < n ->
  to_int (div (of_int (c * n)) (of_int n)) = c.
Proof.
  intros Hc Hn.
  destruct (Z.eq_dec c 0) as [-> | Hc0].
  - unfold div, of_int, to_int. cbn. reflexivity.
  - assert (Hs : 0 < c * n) by nia.
    destruct (ilog2_ratio_spec (c * n) n Hs Hn) as [Hpos Hneg].
    assert (HE0 : 0 <= ilog2_ratio (c * n) n).
    { destruct (Z_lt_le_dec (ilog2_ratio (c * n) n) 0) as [Hlt | ?];
        [| assumption].
      exfalso. destruct (Hneg Hlt) as [_ Hup].
      assert (0 < 2 ^ (- ilog2_ratio (c * n) n - 1))
        by (apply Z.pow_pos_nonneg; lia).
      nia. }
    destruct (Hpos HE0) as [Hlow Hup].
    assert (HE : ilog2_ratio (c * n) n = Z.log2 c).
    { symmetry. apply Z.log2_unique; [assumption |].
      replace (Z.succ (ilog2_ratio (c * n) n))
        with (ilog2_ratio (c * n) n + 1) by lia.
      split; nia. }
    assert (HL : Z.log2 c < 53) by (apply Z.log2_lt_pow2; lia).
    destruct (div_of_int_pos (c * n) n Hs Hn) as [-> | ?]; [| lia].
    rewrite HE.
    set (k := 52 - Z.log2 c) in *.
    assert (Hk : 0 <= k) by (unfold k; lia).
    assert (Hp2 : 0 < 2 ^ k) by (apply Z.pow_pos_nonneg; lia).
    replace (c * n * 2 ^ k) with (c * 2 ^ k * n) by ring.
    rewrite round_half_even_exact by assumption.
    rewrite to_int_scaled by nia.
    apply Z.div_mul. lia.
Qed.

End Float64Facts.

(** ** The quantizer *)

Lemma zrange_In (lo v : Z) (n : nat) :
  lo <= v < lo + Z.of_nat n -> In v (zrange lo n).
Proof.
  intros H. unfold zrange. apply in_map_iff.
  exists (Z.to_nat (v - lo)). split; [lia |].
  apply in_seq. lia.
Qed.

Lemma quantizer_agrees_supported :
  forallb quantizer_agrees (zrange 4 125) = true.
Proof. vm_cast_no_check (eq_refl true). Qed.

Lemma factor_nonzero (B : Z) :
  B <> 0 ->
  factor B = Ok (Float64.div (Float64.of_int 256) (Float64.of_int B)).
Proof.
  intros HB. unfold factor. destruct (Z.eqb_spec B 0); [contradiction | reflexivity].
Qed.

Lemma clip_range (x lo hi : Z) : lo <= hi -> lo <= clip x lo hi <= hi.
Proof. unfold clip. lia. Qed.

(** C1. For every channel value in [0,255] and every bin count from 4 to
    128, the bin the code computes in binary64 is the floor of the exact
    quotient [v / (256 / B)], clamped to [0, B-1]; and this is not the
    quantizer with an integer-rounded bin width, from which it differs at
    [B = 7], [v = 108]. *)
Theorem quantizer_real_division :
  (forall B v, supported B -> u8 v ->
     exists f, factor B = Ok f /\ channel_bin f B v = quantizer_spec B v) /\
  (exists B v, supported B /\ u8 v /\
     quantize B v <> quantizer_int_width B v).
Proof.
  split.
  - intros B v HB Hv. unfold supported, u8 in *.
    pose proof quantizer_agrees_supported as Hall.
    rewrite forallb_forall in Hall.
    specialize (Hall B (zrange_In 4 B 125 ltac:(lia))).
    unfold quantizer_agrees in Hall.
    destruct (factor B) as [f | e]; [| discriminate].
    exists f. split; [reflexivity |].
    rewrite forallb_forall in Hall.
    specialize (Hall v (zrange_In 0 v 256 ltac:(lia))).
    apply Z.eqb_eq in Hall. exact Hall.
  - exists 7, 108. unfold supported, u8.
    repeat split; try lia. vm_compute. discriminate.
Qed.

Lemma quantizer_real_division_witness :
  supported 7 /\ u8 255 /\
  exists f, factor 7 = Ok f /\ channel_bin f 7 255 = quantizer_spec 7 255.
Proof.
  assert (H7 : supported 7) by (unfold supported; lia).
  assert (Hv : u8 255) by (unfold u8; lia).
  split; [exact H7 |]. split; [exact Hv |].
  exact (proj1 quantizer_real_division 7 255 H7 Hv).
Defined.

(** C9. A channel value of 255 with 7 bins falls into bin 6, and for every
    channel value in [0,255] and every positive bin count the bin lies in
    [0, B-1]. *)
Theorem channel_bin_in_range :
  (exists f, factor 7 = Ok f /\ channel_bin f 7 255 = 6) /\
  (forall B v f, 1 <= B -> u8 v -> factor B = Ok f ->
     0 <= channel_bin f B v <= B - 1).
Proof.
  split.
  - eexists. split; [apply factor_nonzero; lia |]. vm_compute. reflexivity.
  - intros B v f HB _ _. unfold channel_bin. apply clip_range. lia.
Qed.

Lemma channel_bin_in_range_witness :
  1 <= 7 /\ u8 255 /\
  0 <= quantize 7 255 <= 7 - 1.
Proof.
  assert (H7 : 1 <= 7) by lia.
  assert (Hv : u8 255) by (unfold u8; lia).
  split; [exact H7 |]. split; [exact Hv |].
  exact (proj2 channel_bin_in_range 7 255 _ H7 Hv (factor_nonzero 7 ltac:(lia))).
Defined.

(** ** The combined index and its decoding *)

Lemma wrap64_small (x : Z) : - 2 ^ 63 <= x < 2 ^ 63 -> wrap64 x = x.
Proof.
  intros H. unfold wrap64. rewrite Z.mod_small; lia.
Qed.

Lemma cube_bound (B : Z) :
  1 <= B <= 2097152 -> B * B <= 4398046511104 /\ B * (B * B) <= 2 ^ 63.
Proof.
  intros H. assert (H2 : B * B <= 2097152 * 2097152) by nia.
  split; [lia |]. change (2 ^ 63) with (2097152 * (2097152 * 2097152)). nia.
Qed.

(** Below the wrap-around the index is the polynomial of line 23. *)
Lemma bin_index_exact (B r g b : Z) :
  1 <= B <= 2097152 -> in_lattice B (r, g, b) ->
  bin_index B (r, g, b) = r * (B * B) + g * B + b.
Proof.
  intros HB (Hr & Hg & Hb).
  destruct (cube_bound B HB) as [H2 H3].
  unfold bin_index, add64, mul64.
  replace (B ^ 2) with (B * B) by ring.
  assert (0 <= r * (B * B) <= (B - 1) * (B * B)) by nia.
  assert (0 <= g * B <= (B - 1) * B) by nia.
  rewrite (wrap64_small (r * (B * B))) by lia.
  rewrite (wrap64_small (g * B)) by nia.
  rewrite (wrap64_small (r * (B * B) + g * B)) by nia.
  apply wrap64_small. nia.
Qed.

Lemma decode_poly (B r g b : Z) :
  0 < B -> 0 <= g < B -> 0 <= b < B ->
  decode B (r * (B * B) + g * B + b) = (r, g, b).
Proof.
  intros HB Hg Hb. unfold decode.
  replace (B ^ 2) with (B * B) by ring.
  assert (E1 : (r * (B * B) + g * B + b) / (B * B) = r).
  { symmetry. apply (Z.div_unique_pos _ _ r (g * B + b)); nia. }
  assert (E2 : (r * (B * B) + g * B + b) / B = r * B + g).
  { symmetry. apply (Z.div_unique_pos _ _ (r * B + g) b); [lia | ring]. }
  assert (E3 : (r * (B * B) + g * B + b) mod B = b).
  { symmetry. apply (Z.mod_unique_pos _ _ (r * B + g) b); [lia | ring]. }
  assert (E4 : (r * B + g) mod B = g).
  { symmetry. apply (Z.mod_unique_pos _ _ r g); [lia | ring]. }
  rewrite E1, E2, E3, E4. reflexivity.
Qed.

Lemma decode_bin_index (B : Z) (t : Z * Z * Z) :
  1 <= B <= 2097152 -> in_lattice B t -> decode B (bin_index B t) = t.
Proof.
  intros HB HL. destruct t as [[r g] b].
  rewrite (bin_index_exact B r g b HB HL).
  destruct HL as (Hr & Hg & Hb). apply decode_poly; lia.
Qed.

(** The claim of C4 as worded, for every [B >= 1], fails on the code: the
    index is taken in 64-bit arithmetic, and with 4194304 bins the lattice
    point (4194303, 0, 0) wraps to a negative index that decodes to
    (-1, 0, 0). *)
Lemma bin_index_wraps_beyond_int64 :
  ~ (forall B t, 1 <= B -> in_lattice B t ->
       0 <= bin_index B t < B ^ 3 /\ decode B (bin_index B t) = t).
Proof.
  intros H.
  assert (HL : in_lattice 4194304 (4194303, 0, 0)) by (unfold in_lattice; lia).
  destruct (H 4194304 (4194303, 0, 0) ltac:(lia) HL) as [_ Hd].
  vm_compute in Hd. discriminate Hd.
Qed.

(** C4 (amended). For every bin count from 1 to 2097152, that is while
    [B^3] fits the 64-bit index, the combination is a bijection from
    [[0,B)^3] onto [[0,B^3)] and the refiner's decoding is its inverse on
    both sides. *)
Theorem bin_index_bijection (B : Z) :
  1 <= B <= 2097152 ->
  (forall t, in_lattice B t ->
     0 <= bin_index B t < B ^ 3 /\ decode B (bin_index B t) = t) /\
  (forall i, 0 <= i < B ^ 3 ->
     in_lattice B (decode B i) /\ bin_index B (decode B i) = i).
Proof.
  intros HB. replace (B ^ 3) with (B * (B * B)) by ring.
  split.
  - intros [[r g] b] HL. split; [| apply decode_bin_index; assumption].
    rewrite (bin_index_exact B r g b HB HL).
    destruct HL as (Hr & Hg & Hb). nia.
  - intros i Hi.
    assert (HL : in_lattice B (decode B i)).
    { unfold decode, in_lattice. replace (B ^ 2) with (B * B) by ring.
      split; [| split].
      - split; [apply Z.div_pos; nia |].
        apply Z.div_lt_upper_bound; nia.
      - apply Z.mod_pos_bound; lia.
      - apply Z.mod_pos_bound; lia. }
    split; [exact HL |].
    unfold decode in *. rewrite bin_index_exact by assumption.
    replace (B ^ 2) with (B * B) by ring.
    rewrite <- Z.div_div by lia.
    pose proof (Z.div_mod i B ltac:(lia)) as E1.
    pose proof (Z.div_mod (i / B) B ltac:(lia)) as E2.
    nia.
Qed.

Lemma bin_index_bijection_witness :
  1 <= 7 <= 2097152 /\
  (forall t, in_lattice 7 t ->
     0 <= bin_index 7 t < 7 ^ 3 /\ decode 7 (bin_index 7 t) = t) /\
  (forall i, 0 <= i < 7 ^ 3 ->
     in_lattice 7 (decode 7 i) /\ bin_index 7 (decode 7 i) = i).
Proof.
  assert (H7 : 1 <= 7 <= 2097152) by lia.
  split; [exact H7 |]. exact (bin_index_bijection 7 H7).
Defined.

(** ** The selector *)

Lemma insert_In (x y : Z) (l : list Z) :
  In y (insert x l) <-> y = x \/ In y l.
Proof.
  induction l as [| z l IH]; cbn.
  - intuition congruence.
  - destruct (Z.ltb_spec x z); [cbn; intuition congruence |].
    destruct (Z.eqb_spec x z); cbn; [subst; intuition congruence |].
    rewrite IH. intuition congruence.
Qed.

Lemma insert_sorted (x : Z) (l : list Z) :
  StronglySorted Z.lt l -> StronglySorted Z.lt (insert x l).
Proof.
  induction 1 as [| z l Hs IH Hall]; cbn.
  - repeat constructor.
  - destruct (Z.ltb_spec x z).
    + constructor; [constructor; assumption |].
      constructor; [assumption |].
      eapply Forall_impl; [| exact Hall]. cbn. intros; lia.
    + destruct (Z.eqb_spec x z); [constructor; assumption |].
      constructor; [assumption |].
      apply Forall_forall. intros y Hy. apply insert_In in Hy.
      destruct Hy as [-> | Hy]; [lia |].
      rewrite Forall_forall in Hall. auto.
Qed.

Lemma unique_values_In (x : Z) (xs : list Z) :
  In x (unique_values xs) <-> In x xs.
Proof.
  induction xs as [| y xs IH]; cbn; [tauto |].
  rewrite insert_In, IH. intuition congruence.
Qed.

Lemma unique_values_sorted (xs : list Z) :
  StronglySorted Z.lt (unique_values xs).
Proof.
  induction xs; cbn; [constructor | apply insert_sorted; assumption].
Qed.

(** Two ascending lists without repetition that hold the same values are
    the same list. *)
Lemma sorted_unique (l1 l2 : list Z) :
  StronglySorted Z.lt l1 -> StronglySorted Z.lt l2 ->
  (forall x, In x l1 <-> In x l2) -> l1 = l2.
Proof.
  intros H1. revert l2.
  induction H1 as [| a l1 Hs1 IH Ha]; intros l2 H2 Hin.
  - destruct l2 as [| b l2]; [reflexivity |].
    exfalso. apply (proj2 (Hin b)). left; reflexivity.
  - destruct H2 as [| b l2 Hs2 Hb].
    + exfalso. apply (proj1 (Hin a)). left; reflexivity.
    + rewrite Forall_forall in Ha, Hb.
      assert (a = b).
      { destruct (proj1 (Hin a) (or_introl eq_refl)) as [E | Hi];
          [congruence |].
        destruct (proj2 (Hin b) (or_introl eq_refl)) as [E | Hj];
          [congruence |].
        specialize (Ha _ Hj). specialize (Hb _ Hi). lia. }
      subst b. f_equal. apply IH; [assumption |].
      intros x. split; intros Hx.
      * destruct (proj1 (Hin x) (or_intror Hx)) as [E | ?]; [| assumption].
        subst x. specialize (Ha _ Hx). lia.
      * destruct (proj2 (Hin x) (or_intror Hx)) as [E | ?]; [| assumption].
        subst x. specialize (Hb _ Hx). lia.
Qed.

Lemma sorted_nth_le (l : list Z) (i j : nat) :
  StronglySorted Z.lt l -> (i <= j < length l)%nat ->
  nth i l 0 <= nth j l 0.
Proof.
  intros Hs. revert i j.
  induction Hs as [| a l Hs IH Ha]; intros i j Hij; cbn in *; [lia |].
  destruct i as [| i], j as [| j]; try lia.
  - rewrite Forall_forall in Ha.
    assert (a < nth j l 0) by (apply Ha, nth_In; lia). lia.
  - apply IH. lia.
Qed.

Lemma argmax_from_spec (l pre : list Z) (best : nat) (best_v : Z) :
  (best < length pre)%nat -> nth best pre 0 = best_v ->
  (forall j, (j < length pre)%nat -> nth j pre 0 <= best_v) ->
  (forall j, (j < best)%nat -> nth j pre 0 < best_v) ->
  first_maximum (pre ++ l) (argmax_from l (length pre) best best_v).
Proof.
  revert pre best best_v.
  induction l as [| x l IH]; intros pre best best_v Hb Hv Hmax Hfirst.
  - cbn. rewrite app_nil_r. unfold first_maximum. rewrite Hv. auto.
  - cbn [argmax_from].
    replace (pre ++ x :: l) with ((pre ++ [x]) ++ l)
      by (rewrite <- app_assoc; reflexivity).
    replace (S (length pre)) with (length (pre ++ [x]))
      by (rewrite length_app; cbn; lia).
    destruct (Z.ltb_spec best_v x) as [Hlt | Hge].
    + apply IH.
      * rewrite length_app; cbn; lia.
      * rewrite app_nth2, Nat.sub_diag by lia. reflexivity.
      * intros j Hj. rewrite length_app in Hj; cbn in Hj.
        destruct (Nat.eq_dec j (length pre)) as [-> | Hne].
        -- rewrite app_nth2, Nat.sub_diag by lia. cbn. lia.
        -- rewrite app_nth1 by lia. specialize (Hmax j ltac:(lia)). lia.
      * intros j Hj. rewrite app_nth1 by lia.
        specialize (Hmax j Hj). lia.
    + apply IH.
      * rewrite length_app; cbn; lia.
      * rewrite app_nth1 by lia. assumption.
      * intros j Hj. rewrite length_app in Hj; cbn in Hj.
        destruct (Nat.eq_dec j (length pre)) as [-> | Hne].
        -- rewrite app_nth2, Nat.sub_diag by lia. cbn. lia.
        -- rewrite app_nth1 by lia. apply Hmax. lia.
      * intros j Hj. rewrite app_nth1 by lia. apply Hfirst. assumption.
Qed.

Lemma np_argmax_spec (cs : list Z) :
  match np_argmax cs with
  | Ok i => first_maximum cs i
  | Raise e =>
      cs = [] /\ e = ValueError "attempt to get argmax of an empty sequence"
  end.
Proof.
  destruct cs as [| x l]; cbn [np_argmax]; [split; reflexivity |].
  apply (argmax_from_spec l [x] 0%nat x); cbn; try lia; try reflexivity.
  - intros j Hj. assert (j = 0%nat) by lia. subst j. cbn. lia.
Qed.

Lemma first_maximum_unique (cs : list Z) (i j : nat) :
  first_maximum cs i -> first_maximum cs j -> i = j.
Proof.
  intros (Hi & Hmi & Hfi) (Hj & Hmj & Hfj).
  destruct (Nat.lt_trichotomy i j) as [H | [H | H]]; [| assumption |].
  - specialize (Hfj i H). specialize (Hmi j Hj). lia.
  - specialize (Hfi j H). specialize (Hmj i Hi). lia.
Qed.

Lemma nth_map_count (xs us : list Z) (j : nat) :
  (j < length us)%nat ->
  nth j (map (fun u => count u xs) us) 0 = count (nth j us 0) xs.
Proof.
  intros Hj.
  rewrite (nth_indep _ 0 (count 0 xs)) by (rewrite length_map; assumption).
  apply (map_nth (fun u => count u xs)).
Qed.

(** What [select] returns on a non-empty array of indices. *)
Lemma select_spec (idx : list Z) :
  idx <> [] ->
  exists i,
    select idx = Ok (nth i (unique_values idx) 0) /\
    first_maximum (map (fun u => count u idx) (unique_values idx)) i.
Proof.
  intros Hne. unfold select, np_unique.
  pose proof (np_argmax_spec (map (fun u => count u idx) (unique_values idx)))
    as Hspec.
  destruct (np_argmax _) as [i | e].
  - exists i. split; [reflexivity | assumption].
  - exfalso. destruct Hspec as [Hnil _]. apply map_eq_nil in Hnil.
    destruct idx as [| x idx]; [contradiction |].
    assert (In x (unique_values (x :: idx)))
      by (apply unique_values_In; left; reflexivity).
    rewrite Hnil in H. contradiction.
Qed.

(** C10. On a non-empty array of bin indices the selector returns an
    occupied bin of maximal count and, among the bins that reach that
    count, the one with the lowest index. *)
Theorem select_lowest_of_ties (idx : list Z) :
  idx <> [] ->
  exists d,
    select idx = Ok d /\ In d idx /\
    (forall x, In x idx -> count x idx <= count d idx) /\
    (forall x, In x idx -> count x idx = count d idx -> d <= x).
Proof.
  intros Hne.
  destruct (select_spec idx Hne) as (i & Hsel & Hi & Hmax & Hfirst).
  rewrite length_map in Hi, Hmax.
  set (us := unique_values idx) in *.
  exists (nth i us 0). split; [exact Hsel |].
  assert (Hnth : forall x, In x idx ->
            exists j, (j < length us)%nat /\ nth j us 0 = x).
  { intros x Hx. apply (In_nth us x 0). apply unique_values_In. exact Hx. }
  split; [| split].
  - apply (unique_values_In _ idx). apply nth_In. exact Hi.
  - intros x Hx. destruct (Hnth x Hx) as (j & Hj & <-).
    specialize (Hmax j Hj). rewrite !nth_map_count in Hmax by assumption.
    exact Hmax.
  - intros x Hx Heq. destruct (Hnth x Hx) as (j & Hj & <-).
    destruct (Nat.lt_ge_cases j i) as [Hlt | Hge].
    + specialize (Hfirst j Hlt).
      rewrite !nth_map_count in Hfirst by assumption. lia.
    + apply sorted_nth_le; [apply unique_values_sorted | lia].
Qed.

Lemma select_lowest_of_ties_witness :
  [5; 2; 5; 2; 9] <> [] /\
  exists d,
    select [5; 2; 5; 2; 9] = Ok d /\ In d [5; 2; 5; 2; 9] /\
    (forall x, In x [5; 2; 5; 2; 9] ->
       count x [5; 2; 5; 2; 9] <= count d [5; 2; 5; 2; 9]) /\
    (forall x, In x [5; 2; 5; 2; 9] ->
       count x [5; 2; 5; 2; 9] = count d [5; 2; 5; 2; 9] -> d <= x).
Proof.
  assert (H : [5; 2; 5; 2; 9] <> []) by discriminate.
  split; [exact H |]. exact (select_lowest_of_ties _ H).
Defined.

(** ** The refiner and the whole function *)

Lemma select_In (idx : list Z) :
  idx <> [] -> exists d, select idx = Ok d /\ In d idx.
Proof.
  intros Hne. destruct (select_spec idx Hne) as (i & Hsel & Hi & _).
  rewrite length_map in Hi.
  eexists. split; [exact Hsel |].
  apply (unique_values_In _ idx). apply nth_In. exact Hi.
Qed.

Lemma count_pos (x : Z) (xs : list Z) : In x xs -> 1 <= count x xs.
Proof.
  intros H. unfold count.
  apply (count_occ_In Z.eq_dec) in H. lia.
Qed.

Lemma bins_eqb_eq (a b : Z * Z * Z) : bins_eqb a b = true <-> a = b.
Proof.
  destruct a as [[ar ag] ab], b as [[br bg] bb]. unfold bins_eqb.
  rewrite !andb_true_iff, !Z.eqb_eq. split.
  - intros [[-> ->] ->]. reflexivity.
  - intros E. inversion E. auto.
Qed.

Lemma pixel_bins_in_lattice (f : Float64.t) (B : Z) (p : pixel) :
  1 <= B -> in_lattice B (pixel_bins f B p).
Proof.
  intros HB. unfold pixel_bins, in_lattice, channel_bin.
  pose proof (clip_range (Float64.to_int
    (Float64.div (Float64.of_int (red p)) f)) 0 (B - 1)).
  pose proof (clip_range (Float64.to_int
    (Float64.div (Float64.of_int (green p)) f)) 0 (B - 1)).
  pose proof (clip_range (Float64.to_int
    (Float64.div (Float64.of_int (blue p)) f)) 0 (B - 1)).
  lia.
Qed.

Lemma cluster_pixels_In (f : Float64.t) (B d : Z) (pixels : list pixel)
  (p : pixel) :
  In p (cluster_pixels f B d pixels) <->
  In p pixels /\ pixel_bins f B p = decode B d.
Proof.
  unfold cluster_pixels. rewrite filter_In, bins_eqb_eq. reflexivity.
Qed.

(** The pixel that gave the dominant bin its index passes the mask. *)
Lemma cluster_of_occupied_bin (f : Float64.t) (B d : Z)
  (pixels : list pixel) :
  1 <= B <= 2097152 -> In d (bin_indices f B pixels) ->
  cluster_pixels f B d pixels <> [].
Proof.
  intros HB Hd. unfold bin_indices in Hd. apply in_map_iff in Hd.
  destruct Hd as (p & Hp & Hin).
  assert (In p (cluster_pixels f B d pixels)) as Hc.
  { apply cluster_pixels_In. split; [assumption |].
    subst d. symmetry.
    apply (decode_bin_index B _ HB).
    apply pixel_bins_in_lattice. lia. }
  intros E. rewrite E in Hc. contradiction.
Qed.

Lemma sum_bounds (col : list Z) :
  Forall u8 col -> 0 <= sum col <= 255 * Z.of_nat (length col).
Proof.
  induction 1 as [| x col Hx _ IH]; cbn [sum fold_right length].
  - lia.
  - unfold u8 in Hx. fold (sum col). lia.
Qed.

Lemma sum_repeat (c : Z) (n : nat) : sum (repeat c n) = c * Z.of_nat n.
Proof.
  induction n as [| n IH]; cbn [repeat sum fold_right]; [lia |].
  fold (sum (repeat c n)). lia.
Qed.

Lemma mean_int_range (col : list Z) :
  col <> [] -> Forall u8 col -> exists m, mean_int col = Ok m /\ u8 m.
Proof.
  intros Hne Hall. destruct col as [| x col]; [contradiction |].
  unfold mean_int. eexists. split; [reflexivity |].
  apply Float64Facts.to_int_div_bounded.
  - apply sum_bounds. assumption.
  - cbn [length]. lia.
  - lia.
  - apply sum_bounds. assumption.
Qed.

Lemma mean_int_repeat (c : Z) (n : nat) :
  0 <= c < 2 ^ 53 -> (0 < n)%nat -> mean_int (repeat c n) = Ok c.
Proof.
  intros Hc Hn. destruct n as [| n]; [lia |].
  unfold mean_int. cbn [repeat]. f_equal.
  change (c :: repeat c n) with (repeat c (S n)).
  rewrite sum_repeat, repeat_length.
  apply Float64Facts.to_int_div_exact; lia.
Qed.

Lemma valid_pixel_channels (p : pixel) :
  valid_pixel p -> u8 (red p) /\ u8 (green p) /\ u8 (blue p).
Proof. destruct p as [[r g] b]. cbn. tauto. Qed.

Lemma refine_range (f : Float64.t) (B d : Z) (pixels : list pixel) :
  cluster_pixels f B d pixels <> [] -> Forall valid_pixel pixels ->
  exists r g b, refine f B d pixels = Ok (r, g, b) /\ u8 r /\ u8 g /\ u8 b.
Proof.
  intros Hne Hall. unfold refine.
  set (cluster := cluster_pixels f B d pixels) in *.
  assert (Hc : Forall valid_pixel cluster).
  { rewrite Forall_forall in *. intros p Hp. apply Hall.
    apply cluster_pixels_In in Hp. tauto. }
  assert (Hcol : forall ch : pixel -> Z,
             (forall p, valid_pixel p -> u8 (ch p)) ->
             exists m, mean_int (map ch cluster) = Ok m /\ u8 m).
  { intros ch Hch. apply mean_int_range.
    - intros E. apply map_eq_nil in E. contradiction.
    - apply Forall_map. eapply Forall_impl; [| exact Hc]. exact Hch. }
  destruct (Hcol red) as (r & -> & Hr);
    [intros p Hp; apply (valid_pixel_channels p Hp) |].
  destruct (Hcol green) as (g & -> & Hg);
    [intros p Hp; apply (valid_pixel_channels p Hp) |].
  destruct (Hcol blue) as (b & -> & Hb);
    [intros p Hp; apply (valid_pixel_channels p Hp) |].
  cbn [bind]. exists r, g, b. auto.
Qed.

(** On a non-empty array of 8-bit pixels the function returns, for every
    bin count whose cube fits the 64-bit index. *)
Lemma pipeline_returns (pixels : list pixel) (B : Z) :
  pixels <> [] -> Forall valid_pixel pixels -> 1 <= B <= 2097152 ->
  exists f d r g b,
    factor B = Ok f /\
    select (bin_indices f B pixels) = Ok d /\
    In d (bin_indices f B pixels) /\
    cluster_pixels f B d pixels <> [] /\
    refine f B d pixels = Ok (r, g, b) /\
    dominant_color_of_pixels pixels B = Ok (r, g, b) /\
    u8 r /\ u8 g /\ u8 b.
Proof.
  intros Hne Hall HB.
  assert (Hf := factor_nonzero B ltac:(lia)).
  set (f := Float64.div (Float64.of_int 256) (Float64.of_int B)) in *.
  assert (Hidx : bin_indices f B pixels <> []).
  { intros E. apply map_eq_nil in E. contradiction. }
  destruct (select_In _ Hidx) as (d & Hsel & Hd).
  assert (Hcl := cluster_of_occupied_bin f B d pixels HB Hd).
  destruct (refine_range f B d pixels Hcl Hall) as (r & g & b & Href & Hr).
  exists f, d, r, g, b.
  repeat (split; [assumption |]).
  split; [| exact Hr].
  unfold dominant_color_of_pixels. rewrite Hf. cbn [bind].
  rewrite Hsel. cbn [bind]. exact Href.
Qed.

(** C2. On a non-empty array of 8-bit pixels and a supported bin count the
    function returns a triple whose three components lie in [0,255]; the
    dominant bin holds at least one pixel, so the cluster whose mean is
    taken is not empty. *)
Theorem result_in_range (GaussianBlur : list pixel -> list pixel)
  (img : list pixel) (B : Z) (blur : bool) :
  let pixels := if blur then GaussianBlur img else img in
  pixels <> [] -> Forall valid_pixel pixels -> supported B ->
  exists f d r g b,
    factor B = Ok f /\
    select (bin_indices f B pixels) = Ok d /\
    1 <= count d (bin_indices f B pixels) /\
    cluster_pixels f B d pixels <> [] /\
    dominant_color_histogram GaussianBlur img B blur = Ok (r, g, b) /\
    u8 r /\ u8 g /\ u8 b.
Proof.
  intros pixels Hne Hall HB. unfold supported in HB.
  destruct (pipeline_returns pixels B Hne Hall ltac:(lia))
    as (f & d & r & g & b & Hf & Hsel & Hd & Hcl & _ & Hres & Hr).
  exists f, d, r, g, b.
  split; [exact Hf |]. split; [exact Hsel |].
  split; [apply count_pos; exact Hd |].
  split; [exact Hcl |]. split; [exact Hres | exact Hr].
Qed.

Lemma result_in_range_witness :
  exists f d r g b,
    factor 32 = Ok f /\
    select (bin_indices f 32 [(200, 50, 10); (0, 0, 0); (201, 51, 12)])
      = Ok d /\
    1 <= count d (bin_indices f 32 [(200, 50, 10); (0, 0, 0); (201, 51, 12)]) /\
    cluster_pixels f 32 d [(200, 50, 10); (0, 0, 0); (201, 51, 12)] <> [] /\
    dominant_color_histogram (fun im => im)
      [(200, 50, 10); (0, 0, 0); (201, 51, 12)] 32 false = Ok (r, g, b) /\
    u8 r /\ u8 g /\ u8 b.
Proof.
  apply (result_in_range (fun im => im)
           [(200, 50, 10); (0, 0, 0); (201, 51, 12)] 32 false).
  - discriminate.
  - repeat constructor; unfold u8; lia.
  - unfold supported; lia.
Defined.

Lemma filter_repeat {A : Type} (g : A -> bool) (c : A) (n : nat) :
  filter g (repeat c n) = if g c then repeat c n else [].
Proof.
  induction n as [| n IH]; cbn [repeat filter].
  - destruct (g c); reflexivity.
  - rewrite IH. destruct (g c); reflexivity.
Qed.

(** C3. An image of at least one pixel, all equal to (200,50,10), gives
    exactly (200,50,10) for every supported bin count, with the filter off
    and with a filter that leaves this uniform image as it is. *)
Theorem single_colour_image (GaussianBlur : list pixel -> list pixel)
  (n : nat) (B : Z) (blur : bool) :
  (0 < n)%nat -> supported B ->
  GaussianBlur (repeat (200, 50, 10) n) = repeat (200, 50, 10) n ->
  dominant_color_histogram GaussianBlur (repeat (200, 50, 10) n) B blur
  = Ok (200, 50, 10).
Proof.
  intros Hn HB Hblur. unfold supported in HB.
  unfold dominant_color_histogram.
  replace (if blur then GaussianBlur (repeat (200, 50, 10) n)
           else repeat (200, 50, 10) n)
    with (repeat (200, 50, 10) n) by (destruct blur; congruence).
  set (c := (200, 50, 10)) in *.
  assert (Hne : repeat c n <> []) by (destruct n; [lia | discriminate]).
  assert (Hall : Forall valid_pixel (repeat c n)).
  { apply Forall_forall. intros p Hp. apply repeat_spec in Hp. subst p.
    cbn. unfold u8. lia. }
  destruct (pipeline_returns (repeat c n) B Hne Hall ltac:(lia))
    as (f & d & r & g & b & _ & _ & _ & Hcl & Href & Hres & _).
  rewrite Hres, <- Href. unfold refine.
  unfold cluster_pixels in *. rewrite filter_repeat in *.
  destruct (bins_eqb _ _); [| contradiction].
  rewrite !map_repeat. cbn [red green blue c fst snd].
  rewrite !mean_int_repeat by lia. reflexivity.
Qed.

Lemma single_colour_image_witness :
  dominant_color_histogram (fun im => im) (repeat (200, 50, 10) 6) 32 true
  = Ok (200, 50, 10).
Proof.
  apply (single_colour_image (fun im => im) 6 32 true).
  - lia.
  - unfold supported; lia.
  - reflexivity.
Defined.

(** The claim of C5 as worded fails on the code: on an array of no pixel
    the exception raised is not an [EmptyImageError]. *)
Lemma empty_image_not_EmptyImageError :
  ~ (exists e,
       dominant_color_histogram (fun im => im) [] 32 false = Raise e /\
       exn_name e = "EmptyImageError"%string).
Proof.
  intros (e & He & Hname). vm_compute in He.
  injection He as <-. discriminate Hname.
Qed.

(** C5 (amended). On an array of no pixel, and for a bin count other than
    zero between -2097152 and 2097152, the function raises the
    [ValueError] of [np.argmax] on an empty sequence; it returns no
    triple. *)
Theorem empty_image_raises_ValueError
  (GaussianBlur : list pixel -> list pixel) (img : list pixel) (B : Z)
  (blur : bool) :
  (if blur then GaussianBlur img else img) = [] ->
  - 2097152 <= B <= 2097152 -> B <> 0 ->
  dominant_color_histogram GaussianBlur img B blur
  = Raise (ValueError "attempt to get argmax of an empty sequence").
Proof.
  intros Hnil _ HB. unfold dominant_color_histogram. rewrite Hnil.
  unfold dominant_color_of_pixels. rewrite (factor_nonzero B HB).
  reflexivity.
Qed.

Lemma empty_image_raises_ValueError_witness :
  dominant_color_histogram (fun im => im) [] 32 true
  = Raise (ValueError "attempt to get argmax of an empty sequence").
Proof.
  apply (empty_image_raises_ValueError (fun im => im) [] 32 true).
  - reflexivity.
  - lia.
  - discriminate.
Defined.

(** The claim of C6 as worded fails on the code: with 200 bins, outside
    4..128, no [InvalidParameterError] is raised. *)
Lemma out_of_range_bins_not_rejected :
  ~ (exists e,
       dominant_color_histogram (fun im => im) [(255, 0, 0)] 200 false
       = Raise e /\
       exn_name e = "InvalidParameterError"%string).
Proof.
  intros (e & He & _). vm_compute in He. discriminate He.
Qed.

(** C6 (amended). The function does not check the range of the bin count:
    for a count outside 4..128, from 1 up to 2097152, and a non-empty array
    of 8-bit pixels it goes on and returns a triple within [0,255]. *)
Theorem bins_outside_range_accepted
  (GaussianBlur : list pixel -> list pixel) (img : list pixel) (B : Z)
  (blur : bool) :
  let pixels := if blur then GaussianBlur img else img in
  pixels <> [] -> Forall valid_pixel pixels ->
  ~ supported B -> 1 <= B <= 2097152 ->
  exists r g b,
    dominant_color_histogram GaussianBlur img B blur = Ok (r, g, b) /\
    u8 r /\ u8 g /\ u8 b.
Proof.
  intros pixels Hne Hall _ HB.
  destruct (pipeline_returns pixels B Hne Hall HB)
    as (f & d & r & g & b & _ & _ & _ & _ & _ & Hres & Hr).
  exists r, g, b. split; [exact Hres | exact Hr].
Qed.

Lemma bins_outside_range_accepted_witness :
  exists r g b,
    dominant_color_histogram (fun im => im) [(255, 0, 0); (0, 0, 255)] 200
      false = Ok (r, g, b) /\
    u8 r /\ u8 g /\ u8 b.
Proof.
  apply (bins_outside_range_accepted (fun im => im)
           [(255, 0, 0); (0, 0, 255)] 200 false).
  - discriminate.
  - repeat constructor; unfold u8; lia.
  - unfold supported; lia.
  - lia.
Defined.

(** ** Order of the pixels *)

Lemma unique_values_perm (xs ys : list Z) :
  Permutation xs ys -> unique_values xs = unique_values ys.
Proof.
  intros HP. apply sorted_unique; try apply unique_values_sorted.
  intros x. rewrite !unique_values_In. split; apply Permutation_in.
  - exact HP.
  - apply Permutation_sym. exact HP.
Qed.

Lemma count_perm (x : Z) (xs ys : list Z) :
  Permutation xs ys -> count x xs = count x ys.
Proof.
  intros HP. unfold count. f_equal.
  apply (proj1 (Permutation_count_occ Z.eq_dec xs ys) HP).
Qed.

Lemma select_perm (xs ys : list Z) :
  Permutation xs ys -> select xs = select ys.
Proof.
  intros HP. unfold select, np_unique.
  rewrite (unique_values_perm xs ys HP).
  replace (map (fun u => count u xs) (unique_values ys))
    with (map (fun u => count u ys) (unique_values ys)); [reflexivity |].
  apply map_ext. intros u. symmetry. apply count_perm. exact HP.
Qed.

Lemma filter_perm {A : Type} (g : A -> bool) (l l' : list A) :
  Permutation l l' -> Permutation (filter g l) (filter g l').
Proof.
  induction 1 as [| x l l' _ IH | x y l | l l' l'' _ IH1 _ IH2];
    cbn [filter].
  - constructor.
  - destruct (g x); [constructor |]; exact IH.
  - destruct (g x), (g y); try reflexivity. constructor.
  - etransitivity; eassumption.
Qed.

Lemma sum_perm (l l' : list Z) : Permutation l l' -> sum l = sum l'.
Proof.
  unfold sum.
  induction 1 as [| x l l' _ IH | x y l | l l' l'' _ IH1 _ IH2];
    cbn [fold_right]; lia.
Qed.

Lemma mean_int_perm (l l' : list Z) :
  Permutation l l' -> mean_int l = mean_int l'.
Proof.
  intros HP. unfold mean_int.
  rewrite (sum_perm l l' HP), (Permutation_length HP).
  destruct l as [| x l], l' as [| x' l']; try reflexivity.
  - apply Permutation_nil in HP. discriminate.
  - apply Permutation_sym, Permutation_nil in HP. discriminate.
Qed.

Lemma refine_perm (f : Float64.t) (B d : Z) (l l' : list pixel) :
  Permutation l l' -> refine f B d l = refine f B d l'.
Proof.
  intros HP. unfold refine, cluster_pixels.
  set (g := fun p => bins_eqb (pixel_bins f B p) (decode B d)).
  assert (HF : Permutation (filter g l) (filter g l'))
    by (apply filter_perm; exact HP).
  rewrite (mean_int_perm _ _ (Permutation_map red HF)).
  rewrite (mean_int_perm _ _ (Permutation_map green HF)).
  rewrite (mean_int_perm _ _ (Permutation_map blue HF)).
  reflexivity.
Qed.

(** C8. The quantize-select-refine pipeline gives the same result on a
    pixel array and on any permutation of it. *)
Theorem order_invariant (pixels pixels' : list pixel) (B : Z) :
  Permutation pixels pixels' ->
  dominant_color_of_pixels pixels' B = dominant_color_of_pixels pixels B.
Proof.
  intros HP. unfold dominant_color_of_pixels.
  destruct (factor B) as [f | e]; cbn [bind]; [| reflexivity].
  assert (HI : Permutation (bin_indices f B pixels) (bin_indices f B pixels'))
    by (apply Permutation_map; exact HP).
  rewrite (select_perm _ _ HI).
  destruct (select (bin_indices f B pixels')) as [d | e]; cbn [bind];
    [| reflexivity].
  symmetry. apply refine_perm. exact HP.
Qed.

Lemma order_invariant_witness :
  dominant_color_of_pixels [(0, 0, 255); (255, 0, 0); (250, 3, 1)] 8
  = dominant_color_of_pixels [(255, 0, 0); (0, 0, 255); (250, 3, 1)] 8.
Proof.
  apply (order_invariant [(255, 0, 0); (0, 0, 255); (250, 3, 1)]
           [(0, 0, 255); (255, 0, 0); (250, 3, 1)] 8).
  apply perm_swap.
Defined.

(** ** Repeated calls *)

Lemma np_unique_contract (xs : list Z) :
  unique_contract xs (fst (np_unique xs)) (snd (np_unique xs)).
Proof.
  unfold unique_contract, np_unique. cbn [fst snd].
  split; [apply unique_values_sorted |].
  split; [intros x; apply unique_values_In | reflexivity].
Qed.

Lemma unique_contract_functional (xs us cs : list Z) :
  unique_contract xs us cs -> (us, cs) = np_unique xs.
Proof.
  intros (Hs & Hin & ->). unfold np_unique.
  assert (us = unique_values xs) as ->; [| reflexivity].
  apply sorted_unique; [assumption | apply unique_values_sorted |].
  intros x. rewrite Hin, unique_values_In. reflexivity.
Qed.

Lemma np_argmax_first_maximum (cs : list Z) (i : nat) :
  first_maximum cs i -> np_argmax cs = Ok i.
Proof.
  intros Hi. pose proof (np_argmax_spec cs) as Hspec.
  destruct (np_argmax cs) as [j | e].
  - f_equal. apply (first_maximum_unique cs); assumption.
  - destruct Hspec as [-> _]. destruct Hi as [Hi _]. cbn in Hi. lia.
Qed.

(** The function is one of the calls the contracts allow. *)
Lemma invocation_exists (GaussianBlur : list pixel -> list pixel)
  (img : list pixel) (B : Z) (blur : bool) :
  invocation GaussianBlur img B blur
    (dominant_color_histogram GaussianBlur img B blur).
Proof.
  unfold dominant_color_histogram, dominant_color_of_pixels.
  set (pixels := if blur then GaussianBlur img else img).
  destruct (factor B) as [f | e] eqn:Hf; cbn [bind].
  2: { apply call_without_factor. exact Hf. }
  pose proof (np_unique_contract (bin_indices f B pixels)) as Hu.
  unfold select.
  destruct (np_unique (bin_indices f B pixels)) as [us cs] eqn:Hnp.
  cbn [fst snd] in Hu.
  pose proof (np_argmax_spec cs) as Hspec.
  destruct (np_argmax cs) as [i | e]; cbn [bind].
  - apply (call_with_dominant_bin _ _ _ _ f us cs i); assumption.
  - destruct Hspec as [Hnil ->].
    apply (call_without_pixels _ _ _ _ f us cs); assumption.
Qed.

(** Every call the contracts allow gives what the function gives. *)
Lemma invocation_functional (GaussianBlur : list pixel -> list pixel)
  (img : list pixel) (B : Z) (blur : bool) (r : result rgb) :
  invocation GaussianBlur img B blur r ->
  r = dominant_color_histogram GaussianBlur img B blur.
Proof.
  intros Hcall.
  unfold dominant_color_histogram, dominant_color_of_pixels, select.
  destruct Hcall as [e Hf | f us cs Hf Hu Hnil | f us cs i Hf Hu Hi];
    rewrite Hf; cbn [bind].
  - reflexivity.
  - rewrite <- (unique_contract_functional _ _ _ Hu).
    subst cs. reflexivity.
  - rewrite <- (unique_contract_functional _ _ _ Hu).
    rewrite (np_argmax_first_maximum cs i Hi). reflexivity.
Qed.

(** C7. Two calls on the same image, bin count and blur flag return the
    same result, whatever the library calls return within their
    contracts; bins that tie for the maximum leave no choice, because the
    distinct indices come sorted and the first maximum is taken. *)
Theorem repeated_calls_agree (GaussianBlur : list pixel -> list pixel)
  (img : list pixel) (B : Z) (blur : bool) (r1 r2 : result rgb) :
  invocation GaussianBlur img B blur r1 ->
  invocation GaussianBlur img B blur r2 ->
  r1 = r2.
Proof.
  intros H1 H2.
  rewrite (invocation_functional _ _ _ _ _ H1).
  rewrite (invocation_functional _ _ _ _ _ H2).
  reflexivity.
Qed.

Lemma repeated_calls_agree_witness :
  dominant_color_histogram (fun im => im)
    [(255, 255, 255); (0, 0, 0); (0, 0, 0); (255, 255, 255)] 4 false
  = Ok (0, 0, 0).
Proof.
  apply (repeated_calls_agree (fun im => im)
           [(255, 255, 255); (0, 0, 0); (0, 0, 0); (255, 255, 255)] 4 false).
  - apply invocation_exists.
  - pose proof (invocation_exists (fun im => im)
           [(255, 255, 255); (0, 0, 0); (0, 0, 0); (255, 255, 255)] 4 false)
      as H.
    vm_compute in H. exact H.
Defined.

(** ** Behaviour outside the supported bin counts *)

(** A bin count of zero stops the function at line 14. *)
Example zero_bins_raise :
  dominant_color_of_pixels [(200, 50, 10)] 0 = Raise ZeroDivisionError.
Proof. reflexivity. Qed.

(** Beyond 128 bins the binary64 quotient can fall below the exact one:
    with 186 bins the value 128 lies exactly on the edge of bin 93 and is
    put into bin 92. *)
Example rounding_moves_bin_edge :
  quantize 186 128 = 92 /\ quantizer_spec 186 128 = 93.
Proof. split; vm_compute; reflexivity. Qed.

(** With 4194304 bins the index of a red pixel wraps around, no pixel
    passes the mask and the mean of the empty cluster is NaN. *)
Example wrapped_index_empties_cluster :
  dominant_color_of_pixels [(255, 0, 0)] 4194304
  = Raise (ValueError "cannot convert float NaN to integer").
Proof. vm_compute. reflexivity. Qed.

(** ** More facts about the binary64 model *)

Module Float64Bounds.
Import Float64 Float64Facts.

Lemma round_half_even_near (a q : Z) :
  0 < q -> 2 * a - q <= 2 * (round_half_even a q * q) <= 2 * a + q.
Proof.
  intros Hq. rewrite round_half_even_eq.
  pose proof (Z.div_mod a q ltac:(lia)) as E.
  pose proof (Z.mod_pos_bound a q Hq) as Hr.
  destruct (Z.compare_spec (2 * (a mod q)) q) as [Hc | Hc | Hc].
  - destruct (Z.even (a / q)); nia.
  - nia.
  - nia.
Qed.

Lemma round_half_even_ge (a q n : Z) :
  0 < q -> n * q <= a -> n <= round_half_even a q.
Proof.
  intros Hq Hle.
  assert (n <= a / q) by (apply Z.div_le_lower_bound; lia).
  rewrite round_half_even_eq.
  destruct (2 * (a mod q) ?= q); try lia.
  destruct (Z.even (a / q)); lia.
Qed.

(** The scaled quotient lies in the binade of 53-bit significands. *)
Lemma scaled_bracket (p q : Z) :
  0 < p -> 0 < q -> ilog2_ratio p q <= 52 ->
  q * 2 ^ 52 <= p * 2 ^ (52 - ilog2_ratio p q) < q * 2 ^ 53.
Proof.
  intros Hp Hq HE.
  destruct (ilog2_ratio_spec p q Hp Hq) as [Hpos Hneg].
  set (E := ilog2_ratio p q) in *.
  destruct (Z_lt_le_dec E 0) as [Hlt | Hge].
  - destruct (Hneg Hlt) as [H1 H2].
    replace (52 - E) with (- E - 1 + 53) by lia.
    rewrite Z.pow_add_r by lia.
    assert (P1 : 2 ^ (- E) = 2 * 2 ^ (- E - 1))
      by (rewrite <- Z.pow_succ_r by lia; f_equal; lia).
    assert (0 < 2 ^ (- E - 1)) by (apply Z.pow_pos_nonneg; lia).
    change (2 ^ 53) with (2 * 2 ^ 52). nia.
  - destruct (Hpos Hge) as [H1 H2].
    assert (P1 : 2 ^ 52 = 2 ^ E * 2 ^ (52 - E))
      by (rewrite <- Z.pow_add_r by lia; f_equal; lia).
    assert (0 < 2 ^ (52 - E)) by (apply Z.pow_pos_nonneg; lia).
    assert (0 < 2 ^ E) by (apply Z.pow_pos_nonneg; lia).
    rewrite Z.pow_add_r in H2 by lia. change (2 ^ 1) with 2 in H2.
    change (2 ^ 53) with (2 * 2 ^ 52). rewrite P1. nia.
Qed.

(** A quotient at most [n / 2^j], with [n] below 2^53, has an exponent
    that leaves [j] fractional bits at least. *)
Lemma ilog2_ratio_upper (p q n j : Z) :
  0 < p -> 0 < q -> 0 <= j -> n < 2 ^ 53 -> p * 2 ^ j <= n * q ->
  ilog2_ratio p q <= 52 - j.
Proof.
  intros Hp Hq Hj Hn Hle.
  destruct (ilog2_ratio_spec p q Hp Hq) as [Hpos Hneg].
  set (E := ilog2_ratio p q) in *.
  assert (0 < 2 ^ j) by (apply Z.pow_pos_nonneg; lia).
  destruct (Z_le_gt_dec E (52 - j)) as [? | Hgt]; [assumption | exfalso].
  destruct (Z_lt_le_dec E 0) as [Hlt | Hge].
  - destruct (Hneg Hlt) as [H1 _].
    assert (0 < 2 ^ (- E)) by (apply Z.pow_pos_nonneg; lia).
    assert (P1 : 2 ^ j = 2 ^ (- E) * 2 ^ (j + E))
      by (rewrite <- Z.pow_add_r by lia; f_equal; lia).
    assert (2 ^ 53 <= 2 ^ (j + E)) by (apply Z.pow_le_mono_r; lia).
    assert (n * q <= n * (p * 2 ^ (- E))) by nia.
    nia.
  - destruct (Hpos Hge) as [H1 _].
    assert (0 < 2 ^ E) by (apply Z.pow_pos_nonneg; lia).
    assert (2 ^ 53 <= 2 ^ (E + j)) by (apply Z.pow_le_mono_r; lia).
    rewrite Z.pow_add_r in * by lia. nia.
Qed.

Lemma ilog2_ratio_52 (p q : Z) :
  0 < p -> 0 < q -> p < 2 ^ 53 * q -> ilog2_ratio p q <= 52.
Proof.
  intros Hp Hq Hlt.
  destruct (ilog2_ratio_spec p q Hp Hq) as [Hpos _].
  destruct (Z_le_gt_dec (ilog2_ratio p q) 52) as [? | Hgt];
    [assumption | exfalso].
  destruct Hpos as [H1 _]; [lia |].
  assert (2 ^ 53 <= 2 ^ ilog2_ratio p q) by (apply Z.pow_le_mono_r; lia).
  nia.
Qed.

Lemma to_int_rounded_le (p q k n j : Z) :
  0 <= p -> 0 < q -> 0 <= j <= k -> p * 2 ^ j <= n * q ->
  to_int (mk (round_half_even (p * 2 ^ k) q) (- k)) <= n / 2 ^ j.
Proof.
  intros Hp Hq Hjk Hle.
  assert (0 < 2 ^ j) by (apply Z.pow_pos_nonneg; lia).
  assert (0 < 2 ^ (k - j)) by (apply Z.pow_pos_nonneg; lia).
  assert (0 < 2 ^ k) by (apply Z.pow_pos_nonneg; lia).
  assert (P1 : 2 ^ k = 2 ^ j * 2 ^ (k - j))
    by (rewrite <- Z.pow_add_r by lia; f_equal; lia).
  assert (Hm : round_half_even (p * 2 ^ k) q <= n * 2 ^ (k - j)).
  { apply round_half_even_le; [nia | assumption |]. rewrite P1. nia. }
  rewrite to_int_scaled by (try apply round_half_even_nonneg; nia).
  assert (H2 : round_half_even (p * 2 ^ k) q / 2 ^ k
               <= n * 2 ^ (k - j) / 2 ^ k)
    by (apply Z.div_le_mono; lia).
  assert (H3 : n * 2 ^ (k - j) / 2 ^ k = n / 2 ^ j).
  { rewrite P1. apply Z.div_mul_cancel_r; lia. }
  lia.
Qed.

Lemma to_int_rounded_ge (p q k n : Z) :
  0 <= p -> 0 < q -> 0 <= k -> 0 <= n -> n * q <= p ->
  n <= to_int (mk (round_half_even (p * 2 ^ k) q) (- k)).
Proof.
  intros Hp Hq Hk Hn Hle.
  assert (0 < 2 ^ k) by (apply Z.pow_pos_nonneg; lia).
  rewrite to_int_scaled by (try apply round_half_even_nonneg; nia).
  apply Z.div_le_lower_bound; [lia |].
  apply round_half_even_ge; [assumption | nia].
Qed.

(** The truncated quotient is at least an integer that the exact quotient
    reaches. *)
Lemma to_int_div_at_least (s n lo : Z) :
  0 <= lo -> 0 < n -> lo * n <= s -> s < 2 ^ 53 * n ->
  lo <= to_int (div (of_int s) (of_int n)).
Proof.
  intros Hlo Hn Hle Hup.
  destruct (Z.eq_dec s 0) as [-> | Hs0].
  - unfold div, of_int, to_int. cbn. nia.
  - assert (Hs : 0 < s) by nia.
    assert (HE : ilog2_ratio s n <= 52)
      by (apply ilog2_ratio_52; assumption).
    destruct (div_of_int_pos s n Hs Hn) as [-> | ?]; [| lia].
    apply to_int_rounded_ge; lia.
Qed.

(** Below 2^45 terms, the truncated binary64 mean of 8-bit values is the
    integer quotient of the sum by the number of terms. *)
Lemma to_int_div_floor (s n : Z) :
  0 <= s -> 0 < n -> n < 2 ^ 45 -> s <= 255 * n ->
  to_int (div (of_int s) (of_int n)) = s / n.
Proof.
  intros Hs Hn Hn45 Hle.
  destruct (Z.eq_dec s 0) as [-> | Hs0].
  - unfold div, of_int, to_int. cbn. reflexivity.
  - assert (Hs' : 0 < s) by lia.
    assert (HE : ilog2_ratio s n <= 52 - 45).
    { apply (ilog2_ratio_upper s n (255 * 2 ^ 45) 45); lia. }
    destruct (div_of_int_pos s n Hs' Hn) as [-> | ?]; [| lia].
    set (k := 52 - ilog2_ratio s n) in *.
    assert (Hk : 45 <= k) by (unfold k; lia).
    assert (H2k : 2 ^ 45 <= 2 ^ k) by (apply Z.pow_le_mono_r; lia).
    assert (Hm0 : 0 <= round_half_even (s * 2 ^ k) n)
      by (apply round_half_even_nonneg; nia).
    rewrite to_int_scaled by lia.
    pose proof (Z.div_mod s n ltac:(lia)) as E.
    pose proof (Z.mod_pos_bound s n Hn) as Hr.
    pose proof (round_half_even_near (s * 2 ^ k) n Hn) as Hnear.
    assert (Hlow : s / n * 2 ^ k <= round_half_even (s * 2 ^ k) n)
      by (apply round_half_even_ge; nia).
    symmetry. apply (Z.div_unique_pos _ _ _
      (round_half_even (s * 2 ^ k) n - s / n * 2 ^ k)); [| ring].
    split; [lia |].
    assert (round_half_even (s * 2 ^ k) n * n < (s / n + 1) * 2 ^ k * n)
      by nia.
    nia.
Qed.

End Float64Bounds.

(** ** The quantizer in integer arithmetic *)

Lemma quantizer_spec_integer (B v : Z) :
  0 < B -> quantizer_spec B v = clip (v * B / 256) 0 (B - 1).
Proof.
  intros HB. unfold quantizer_spec. f_equal.
  assert (E : (inject_Z v / (inject_Z 256 / inject_Z B) == (v * B) # 256)%Q).
  { unfold Qeq, Qdiv, Qmult, Qinv, inject_Z. cbn [Qnum Qden].
    destruct B as [| b | b]; try lia. cbn. lia. }
  rewrite (Qfloor_comp _ _ E). reflexivity.
Qed.

Lemma channel_bin_integer (B v : Z) (f : Float64.t) :
  supported B -> u8 v -> factor B = Ok f ->
  channel_bin f B v = clip (v * B / 256) 0 (B - 1).
Proof.
  intros HB Hv Hf. unfold supported, u8 in *.
  pose proof quantizer_agrees_supported as Hall.
  rewrite forallb_forall in Hall.
  specialize (Hall B (zrange_In 4 B 125 ltac:(lia))).
  unfold quantizer_agrees in Hall. rewrite Hf in Hall.
  rewrite forallb_forall in Hall.
  specialize (Hall v (zrange_In 0 v 256 ltac:(lia))).
  apply Z.eqb_eq in Hall. rewrite Hall.
  apply quantizer_spec_integer. lia.
Qed.

Lemma channel_bin_mono (B : Z) (f : Float64.t) :
  supported B -> factor B = Ok f ->
  forall v w, u8 v -> u8 w -> v <= w ->
    channel_bin f B v <= channel_bin f B w.
Proof.
  intros HB Hf v w Hv Hw Hle. pose proof HB as HB'. unfold supported in HB'.
  rewrite !(channel_bin_integer B _ f) by assumption.
  unfold u8 in *.
  assert (v * B / 256 <= w * B / 256) by (apply Z.div_le_mono; nia).
  unfold clip. lia.
Qed.

(** X1. For a supported bin count the bin of a channel value does not
    decrease when the value grows; 0 falls into the first bin and 255 into
    the last. *)
Theorem channel_bin_monotone (B : Z) (f : Float64.t) :
  supported B -> factor B = Ok f ->
  (forall v w, u8 v -> u8 w -> v <= w ->
     channel_bin f B v <= channel_bin f B w) /\
  channel_bin f B 0 = 0 /\
  channel_bin f B 255 = B - 1.
Proof.
  intros HB Hf. pose proof HB as HB'. unfold supported in HB'.
  split; [| split].
  - apply channel_bin_mono; assumption.
  - rewrite (channel_bin_integer B 0 f) by (unfold u8; auto; lia).
    cbn. unfold clip. lia.
  - rewrite (channel_bin_integer B 255 f) by (unfold u8; auto; lia).
    assert (255 * B / 256 = B - 1).
    { symmetry. apply (Z.div_unique_pos _ _ _ (256 - B)); lia. }
    unfold clip. lia.
Qed.

Lemma channel_bin_monotone_witness :
  exists f, factor 7 = Ok f /\
  (forall v w, u8 v -> u8 w -> v <= w ->
     channel_bin f 7 v <= channel_bin f 7 w) /\
  channel_bin f 7 0 = 0 /\
  channel_bin f 7 255 = 7 - 1.
Proof.
  eexists. split; [apply (factor_nonzero 7); lia |].
  apply (channel_bin_monotone 7).
  - unfold supported; lia.
  - apply (factor_nonzero 7); lia.
Defined.

(** ** The colour the refiner returns *)

Lemma list_extremes (col : list Z) :
  col <> [] ->
  exists a b, In a col /\ In b col /\ forall x, In x col -> a <= x <= b.
Proof.
  induction col as [| y col IH]; [contradiction | intros _].
  destruct col as [| z col].
  - exists y, y. cbn. intuition lia.
  - destruct (IH ltac:(discriminate)) as (a & b & Ha & Hb & Hall).
    exists (Z.min y a), (Z.max y b).
    split; [| split].
    + destruct (Z.min_spec y a) as [[_ ->] | [_ ->]];
        [left; reflexivity | right; exact Ha].
    + destruct (Z.max_spec y b) as [[_ ->] | [_ ->]];
        [right; exact Hb | left; reflexivity].
    + intros x [<- | Hx]; [lia |]. specialize (Hall x Hx). lia.
Qed.

Lemma sum_between (col : list Z) (a b : Z) :
  (forall x, In x col -> a <= x <= b) ->
  a * Z.of_nat (length col) <= sum col <= b * Z.of_nat (length col).
Proof.
  unfold sum. induction col as [| y col IH]; intros Hall.
  - cbn. lia.
  - cbn [fold_right length].
    specialize (IH (fun x Hx => Hall x (or_intror Hx))).
    specialize (Hall y (or_introl eq_refl)). lia.
Qed.

(** The truncated mean lies between two of the values. *)
Lemma mean_int_between (col : list Z) :
  col <> [] -> Forall u8 col ->
  exists m a b,
    mean_int col = Ok m /\ In a col /\ In b col /\ a <= m <= b.
Proof.
  intros Hne Hall.
  destruct (list_extremes col Hne) as (a & b & Ha & Hb & Hab).
  pose proof (sum_between col a b Hab) as Hsum.
  rewrite Forall_forall in Hall.
  pose proof (Hall a Ha) as Ha8. pose proof (Hall b Hb) as Hb8.
  unfold u8 in Ha8, Hb8.
  destruct col as [| x col]; [contradiction |].
  set (n := Z.of_nat (length (x :: col))) in *.
  assert (Hn : 0 < n) by (unfold n; cbn [length]; lia).
  eexists _, a, b. split; [reflexivity |].
  split; [exact Ha |]. split; [exact Hb |]. split.
  - apply Float64Bounds.to_int_div_at_least; solve [lia | nia].
  - apply Float64Facts.to_int_div_bounded; solve [lia | nia].
Qed.

Lemma mean_int_floor (col : list Z) :
  col <> [] -> Forall u8 col -> Z.of_nat (length col) < 2 ^ 45 ->
  mean_int col = Ok (sum col / Z.of_nat (length col)).
Proof.
  intros Hne Hall Hlen.
  pose proof (sum_bounds col Hall) as Hsum.
  destruct col as [| x col]; [contradiction |].
  unfold mean_int. f_equal.
  apply Float64Bounds.to_int_div_floor; try lia.
  cbn [length]. lia.
Qed.

Lemma cluster_valid (f : Float64.t) (B d : Z) (pixels : list pixel) :
  Forall valid_pixel pixels ->
  Forall valid_pixel (cluster_pixels f B d pixels).
Proof.
  intros Hall. rewrite Forall_forall in *. intros p Hp.
  apply Hall. apply cluster_pixels_In in Hp. tauto.
Qed.

Lemma column_u8 (ch : pixel -> Z) (l : list pixel) :
  (forall p, valid_pixel p -> u8 (ch p)) ->
  Forall valid_pixel l -> Forall u8 (map ch l).
Proof.
  intros Hch Hall. apply Forall_map.
  eapply Forall_impl; [| exact Hall]. exact Hch.
Qed.

Lemma red_u8 (p : pixel) : valid_pixel p -> u8 (red p).
Proof. intros H. apply (valid_pixel_channels p H). Qed.

Lemma green_u8 (p : pixel) : valid_pixel p -> u8 (green p).
Proof. intros H. apply (valid_pixel_channels p H). Qed.

Lemma blue_u8 (p : pixel) : valid_pixel p -> u8 (blue p).
Proof. intros H. apply (valid_pixel_channels p H). Qed.

(** X2. For fewer than 2^45 pixels the refiner returns, in each channel,
    the integer quotient of the channel sum over the cluster by the size
    of the cluster: the binary64 mean followed by the truncation loses
    nothing but the fraction. *)
Theorem refine_is_floor_of_mean (f : Float64.t) (B d : Z)
  (pixels : list pixel) :
  cluster_pixels f B d pixels <> [] -> Forall valid_pixel pixels ->
  Z.of_nat (length pixels) < 2 ^ 45 ->
  refine f B d pixels =
  Ok (sum (map red (cluster_pixels f B d pixels))
        / Z.of_nat (length (cluster_pixels f B d pixels)),
      sum (map green (cluster_pixels f B d pixels))
        / Z.of_nat (length (cluster_pixels f B d pixels)),
      sum (map blue (cluster_pixels f B d pixels))
        / Z.of_nat (length (cluster_pixels f B d pixels))).
Proof.
  intros Hne Hall Hlen. unfold refine.
  pose proof (cluster_valid f B d pixels Hall) as Hc.
  set (cluster := cluster_pixels f B d pixels) in *.
  assert (Hcl : Z.of_nat (length cluster) < 2 ^ 45).
  { assert (length cluster <= length pixels)%nat
      by (apply filter_length_le).
    lia. }
  assert (Hcol : forall ch : pixel -> Z,
             (forall p, valid_pixel p -> u8 (ch p)) ->
             mean_int (map ch cluster)
             = Ok (sum (map ch cluster) / Z.of_nat (length cluster))).
  { intros ch Hch.
    pose proof (mean_int_floor (map ch cluster)) as E.
    rewrite length_map in E. apply E.
    - intros E'. apply map_eq_nil in E'. contradiction.
    - apply column_u8; assumption.
    - exact Hcl. }
  rewrite (Hcol red red_u8), (Hcol green green_u8), (Hcol blue blue_u8).
  reflexivity.
Qed.

Lemma refine_is_floor_of_mean_witness :
  exists f, factor 4 = Ok f /\
  refine f 4 0 [(10, 20, 30); (255, 255, 255); (13, 21, 33)]
  = Ok ((10 + 13) / 2, (20 + 21) / 2, (30 + 33) / 2).
Proof.
  eexists. split; [apply (factor_nonzero 4); lia |].
  rewrite (refine_is_floor_of_mean _ 4 0
             [(10, 20, 30); (255, 255, 255); (13, 21, 33)]).
  - vm_compute. reflexivity.
  - vm_compute. discriminate.
  - repeat constructor; unfold u8; lia.
  - cbn. lia.
Defined.

Lemma refine_between (f : Float64.t) (B d : Z) (pixels : list pixel) :
  cluster_pixels f B d pixels <> [] -> Forall valid_pixel pixels ->
  exists r g b,
    refine f B d pixels = Ok (r, g, b) /\
    (exists p q, In p (cluster_pixels f B d pixels) /\
                 In q (cluster_pixels f B d pixels) /\
                 red p <= r <= red q) /\
    (exists p q, In p (cluster_pixels f B d pixels) /\
                 In q (cluster_pixels f B d pixels) /\
                 green p <= g <= green q) /\
    (exists p q, In p (cluster_pixels f B d pixels) /\
                 In q (cluster_pixels f B d pixels) /\
                 blue p <= b <= blue q).
Proof.
  intros Hne Hall. unfold refine.
  pose proof (cluster_valid f B d pixels Hall) as Hc.
  set (cluster := cluster_pixels f B d pixels) in *.
  assert (Hcol : forall ch : pixel -> Z,
             (forall p, valid_pixel p -> u8 (ch p)) ->
             exists m, mean_int (map ch cluster) = Ok m /\
               exists p q, In p cluster /\ In q cluster /\
                           ch p <= m <= ch q).
  { intros ch Hch.
    destruct (mean_int_between (map ch cluster))
      as (m & a & b & Hm & Ha & Hb & Hab).
    - intros E. apply map_eq_nil in E. contradiction.
    - apply column_u8; assumption.
    - apply in_map_iff in Ha. destruct Ha as (p & <- & Hp).
      apply in_map_iff in Hb. destruct Hb as (q & <- & Hq).
      exists m. split; [exact Hm |]. exists p, q. auto. }
  destruct (Hcol red red_u8) as (r & -> & Hr).
  destruct (Hcol green green_u8) as (g & -> & Hg).
  destruct (Hcol blue blue_u8) as (b & -> & Hb).
  cbn [bind]. exists r, g, b. auto.
Qed.

(** X3. On a non-empty array of 8-bit pixels, each component of the colour
    returned lies between the values that two pixels of the dominant bin
    have in that channel. *)
Theorem result_between_cluster_pixels (pixels : list pixel) (B : Z) :
  pixels <> [] -> Forall valid_pixel pixels -> 1 <= B <= 2097152 ->
  exists f d r g b,
    factor B = Ok f /\
    select (bin_indices f B pixels) = Ok d /\
    dominant_color_of_pixels pixels B = Ok (r, g, b) /\
    (exists p q, In p (cluster_pixels f B d pixels) /\
                 In q (cluster_pixels f B d pixels) /\
                 red p <= r <= red q) /\
    (exists p q, In p (cluster_pixels f B d pixels) /\
                 In q (cluster_pixels f B d pixels) /\
                 green p <= g <= green q) /\
    (exists p q, In p (cluster_pixels f B d pixels) /\
                 In q (cluster_pixels f B d pixels) /\
                 blue p <= b <= blue q).
Proof.
  intros Hne Hall HB.
  destruct (pipeline_returns pixels B Hne Hall HB)
    as (f & d & r & g & b & Hf & Hsel & _ & Hcl & Href & Hres & _).
  destruct (refine_between f B d pixels Hcl Hall)
    as (r' & g' & b' & Href' & Hbetween).
  rewrite Href in Href'. injection Href' as <- <- <-.
  exists f, d, r, g, b. auto.
Qed.

Lemma result_between_cluster_pixels_witness :
  exists f d r g b,
    factor 8 = Ok f /\
    select (bin_indices f 8 [(10, 20, 30); (200, 0, 0); (13, 21, 28)])
      = Ok d /\
    dominant_color_of_pixels [(10, 20, 30); (200, 0, 0); (13, 21, 28)] 8
      = Ok (r, g, b) /\
    (exists p q,
       In p (cluster_pixels f 8 d [(10, 20, 30); (200, 0, 0); (13, 21, 28)]) /\
       In q (cluster_pixels f 8 d [(10, 20, 30); (200, 0, 0); (13, 21, 28)]) /\
       red p <= r <= red q) /\
    (exists p q,
       In p (cluster_pixels f 8 d [(10, 20, 30); (200, 0, 0); (13, 21, 28)]) /\
       In q (cluster_pixels f 8 d [(10, 20, 30); (200, 0, 0); (13, 21, 28)]) /\
       green p <= g <= green q) /\
    (exists p q,
       In p (cluster_pixels f 8 d [(10, 20, 30); (200, 0, 0); (13, 21, 28)]) /\
       In q (cluster_pixels f 8 d [(10, 20, 30); (200, 0, 0); (13, 21, 28)]) /\
       blue p <= b <= blue q).
Proof.
  apply (result_between_cluster_pixels
           [(10, 20, 30); (200, 0, 0); (13, 21, 28)] 8).
  - discriminate.
  - repeat constructor; unfold u8; lia.
  - lia.
Defined.

(** X4. For a supported bin count the colour returned falls, in every
    channel, into the dominant bin itself: the refinement never leaves
    the bin it refines. *)
Theorem result_in_dominant_bin (pixels : list pixel) (B : Z) :
  pixels <> [] -> Forall valid_pixel pixels -> supported B ->
  exists f d rgb,
    factor B = Ok f /\
    select (bin_indices f B pixels) = Ok d /\
    dominant_color_of_pixels pixels B = Ok rgb /\
    pixel_bins f B rgb = decode B d.
Proof.
  intros Hne Hall HB. pose proof HB as HB'. unfold supported in HB'.
  destruct (pipeline_returns pixels B Hne Hall ltac:(lia))
    as (f & d & r & g & b & Hf & Hsel & _ & Hcl & Href & Hres & _).
  destruct (refine_between f B d pixels Hcl Hall)
    as (r' & g' & b' & Href' & Hr & Hg & Hb).
  rewrite Href in Href'. injection Href' as <- <- <-.
  exists f, d, (r, g, b).
  split; [exact Hf |]. split; [exact Hsel |]. split; [exact Hres |].
  pose proof (cluster_valid f B d pixels Hall) as Hc.
  rewrite Forall_forall in Hc.
  destruct (decode B d) as [[rb gb] bb] eqn:Hdec.
  assert (Hbins : forall p, In p (cluster_pixels f B d pixels) ->
            valid_pixel p /\
            channel_bin f B (red p) = rb /\
            channel_bin f B (green p) = gb /\
            channel_bin f B (blue p) = bb).
  { intros p Hp. split; [apply Hc; exact Hp |].
    apply cluster_pixels_In in Hp. destruct Hp as [_ Hp].
    rewrite Hdec in Hp. unfold pixel_bins in Hp.
    injection Hp as -> -> ->. auto. }
  destruct Hr as (p1 & q1 & Hp1 & Hq1 & Hr).
  destruct Hg as (p2 & q2 & Hp2 & Hq2 & Hg).
  destruct Hb as (p3 & q3 & Hp3 & Hq3 & Hb).
  destruct (Hbins p1 Hp1) as (Vp1 & Ep1 & _ & _).
  destruct (Hbins q1 Hq1) as (Vq1 & Eq1 & _ & _).
  destruct (Hbins p2 Hp2) as (Vp2 & _ & Ep2 & _).
  destruct (Hbins q2 Hq2) as (Vq2 & _ & Eq2 & _).
  destruct (Hbins p3 Hp3) as (Vp3 & _ & _ & Ep3).
  destruct (Hbins q3 Hq3) as (Vq3 & _ & _ & Eq3).
  apply red_u8 in Vp1, Vq1. apply green_u8 in Vp2, Vq2.
  apply blue_u8 in Vp3, Vq3.
  assert (Hr8 : u8 r) by (unfold u8 in *; lia).
  assert (Hg8 : u8 g) by (unfold u8 in *; lia).
  assert (Hb8 : u8 b) by (unfold u8 in *; lia).
  pose proof (channel_bin_mono B f HB Hf) as Hmono.
  pose proof (Hmono _ _ Vp1 Hr8 (proj1 Hr)).
  pose proof (Hmono _ _ Hr8 Vq1 (proj2 Hr)).
  pose proof (Hmono _ _ Vp2 Hg8 (proj1 Hg)).
  pose proof (Hmono _ _ Hg8 Vq2 (proj2 Hg)).
  pose proof (Hmono _ _ Vp3 Hb8 (proj1 Hb)).
  pose proof (Hmono _ _ Hb8 Vq3 (proj2 Hb)).
  unfold pixel_bins. cbn [red green blue fst snd].
  repeat f_equal; lia.
Qed.

Lemma result_in_dominant_bin_witness :
  exists f d rgb,
    factor 8 = Ok f /\
    select (bin_indices f 8 [(10, 20, 30); (200, 0, 0); (13, 21, 28)])
      = Ok d /\
    dominant_color_of_pixels [(10, 20, 30); (200, 0, 0); (13, 21, 28)] 8
      = Ok rgb /\
    pixel_bins f 8 rgb = decode 8 d.
Proof.
  apply (result_in_dominant_bin
           [(10, 20, 30); (200, 0, 0); (13, 21, 28)] 8).
  - discriminate.
  - repeat constructor; unfold u8; lia.
  - unfold supported; lia.
Defined.

(** ** Which bin wins *)

(** An occupied bin of maximal count that is the lowest among the bins of
    that count is the one [select] returns. *)
Lemma select_unique (idx : list Z) (d : Z) :
  In d idx ->
  (forall x, In x idx -> count x idx <= count d idx) ->
  (forall x, In x idx -> count x idx = count d idx -> d <= x) ->
  select idx = Ok d.
Proof.
  intros Hd Hmax Hlow.
  assert (Hne : idx <> []) by (intros E; rewrite E in Hd; contradiction).
  destruct (select_spec idx Hne) as (i & Hsel & Hi & Himax & Hifirst).
  rewrite length_map in Hi, Himax.
  set (us := unique_values idx) in *.
  rewrite Hsel. f_equal.
  destruct (In_nth us d 0) as (j & Hj & Ej);
    [apply unique_values_In; exact Hd |].
  assert (Hdi : In (nth i us 0) idx)
    by (apply (unique_values_In _ idx); apply nth_In; exact Hi).
  pose proof (Himax j Hj) as Hji.
  rewrite !nth_map_count in Hji by assumption. rewrite Ej in Hji.
  pose proof (Hmax _ Hdi) as Hid.
  assert (Heq : count (nth i us 0) idx = count d idx) by lia.
  pose proof (Hlow _ Hdi Heq) as Hle.
  destruct (Nat.lt_ge_cases j i) as [Hlt | Hge].
  - specialize (Hifirst j Hlt).
    rewrite !nth_map_count in Hifirst by assumption.
    rewrite Ej in Hifirst. lia.
  - pose proof (sorted_nth_le us i j (unique_values_sorted idx)
                  ltac:(lia)) as Hs.
    rewrite Ej in Hs. lia.
Qed.

Lemma filter_none {A : Type} (g : A -> bool) (l : list A) :
  (forall x, In x l -> g x = false) -> filter g l = [].
Proof.
  induction l as [| y l IH]; intros H; cbn [filter]; [reflexivity |].
  rewrite (H y (or_introl eq_refl)). apply IH.
  intros x Hx. apply H. right. exact Hx.
Qed.

Lemma count_app (x : Z) (l1 l2 : list Z) :
  count x (l1 ++ l2) = count x l1 + count x l2.
Proof. unfold count. rewrite count_occ_app. lia. Qed.

Lemma count_repeat_same (x : Z) (n : nat) :
  count x (repeat x n) = Z.of_nat n.
Proof. unfold count. rewrite count_occ_repeat_eq; reflexivity. Qed.

Lemma count_repeat_other (x y : Z) (n : nat) :
  x <> y -> count x (repeat y n) = 0.
Proof.
  intros Hne. unfold count. rewrite count_occ_repeat_neq; [reflexivity |].
  congruence.
Qed.

Lemma count_absent (x : Z) (l : list Z) : ~ In x l -> count x l = 0.
Proof.
  intros H. unfold count.
  rewrite (proj1 (count_occ_not_In Z.eq_dec l x) H). reflexivity.
Qed.

Lemma count_le_length (x : Z) (l : list Z) :
  count x l <= Z.of_nat (length l).
Proof.
  unfold count. pose proof (count_occ_bound Z.eq_dec x l). lia.
Qed.

Lemma dominant_color_perm (l l' : list pixel) (B : Z) :
  Permutation l l' ->
  dominant_color_of_pixels l B = dominant_color_of_pixels l' B.
Proof.
  intros HP. unfold dominant_color_of_pixels.
  destruct (factor B) as [f | e]; cbn [bind]; [| reflexivity].
  rewrite (select_perm (bin_indices f B l) (bin_indices f B l'))
    by (apply Permutation_map; exact HP).
  destruct (select (bin_indices f B l')) as [d | e]; cbn [bind];
    [| reflexivity].
  apply refine_perm. exact HP.
Qed.

(** Copies of one colour that have their bin to themselves give that
    colour back, as soon as their bin is the one selected. *)
Lemma isolated_colour_wins (f : Float64.t) (B : Z) (c : pixel) (a : nat)
  (others : list pixel) :
  1 <= B <= 2097152 -> factor B = Ok f -> valid_pixel c -> (0 < a)%nat ->
  (forall p, In p others -> pixel_bins f B p <> pixel_bins f B c) ->
  (forall x, In x (bin_indices f B others) ->
     count x (bin_indices f B others) < Z.of_nat a \/
     (count x (bin_indices f B others) = Z.of_nat a /\
      bin_index B (pixel_bins f B c) < x)) ->
  dominant_color_of_pixels (repeat c a ++ others) B = Ok c.
Proof.
  intros HB Hf Hc Ha Hiso Hcount.
  set (dc := bin_index B (pixel_bins f B c)) in *.
  assert (Hdec : decode B dc = pixel_bins f B c).
  { apply decode_bin_index; [assumption |].
    apply pixel_bins_in_lattice. lia. }
  assert (Hidx : bin_indices f B (repeat c a ++ others)
                 = repeat dc a ++ bin_indices f B others).
  { unfold bin_indices. rewrite map_app, map_repeat. reflexivity. }
  assert (Hout : ~ In dc (bin_indices f B others)).
  { intros Hin. unfold bin_indices in Hin. apply in_map_iff in Hin.
    destruct Hin as (p & Ep & Hp). apply (Hiso p Hp).
    rewrite <- Hdec, <- Ep. symmetry.
    apply decode_bin_index; [assumption |].
    apply pixel_bins_in_lattice. lia. }
  assert (Hdc : count dc (repeat dc a ++ bin_indices f B others)
                = Z.of_nat a).
  { rewrite count_app, count_repeat_same, count_absent by assumption. lia. }
  assert (Hx : forall x, In x (repeat dc a ++ bin_indices f B others) ->
             x <> dc ->
             In x (bin_indices f B others) /\
             count x (repeat dc a ++ bin_indices f B others)
             = count x (bin_indices f B others)).
  { intros x Hin Hne. apply in_app_or in Hin.
    destruct Hin as [Hin | Hin];
      [apply repeat_spec in Hin; contradiction |].
    split; [exact Hin |].
    rewrite count_app, count_repeat_other by assumption. lia. }
  assert (Hsel : select (bin_indices f B (repeat c a ++ others)) = Ok dc).
  { rewrite Hidx. apply select_unique.
    - apply in_or_app. left. destruct a; [lia | left; reflexivity].
    - intros x Hin. destruct (Z.eq_dec x dc) as [-> | Hne]; [lia |].
      destruct (Hx x Hin Hne) as [Hin' ->]. rewrite Hdc.
      destruct (Hcount x Hin'); lia.
    - intros x Hin Heq. destruct (Z.eq_dec x dc) as [-> | Hne]; [lia |].
      destruct (Hx x Hin Hne) as [Hin' E]. rewrite E, Hdc in Heq.
      destruct (Hcount x Hin'); lia. }
  unfold dominant_color_of_pixels. rewrite Hf. cbn [bind].
  rewrite Hsel. cbn [bind].
  unfold refine, cluster_pixels. rewrite filter_app, filter_repeat.
  rewrite Hdec.
  rewrite (proj2 (bins_eqb_eq _ _) eq_refl).
  rewrite (filter_none _ others).
  2: { intros p Hp. destruct (bins_eqb _ _) eqn:E; [| reflexivity].
       apply bins_eqb_eq in E. exfalso. apply (Hiso p Hp). exact E. }
  rewrite app_nil_r, !map_repeat.
  destruct c as [[cr cg] cb]. cbn [red green blue fst snd].
  cbn in Hc. unfold u8 in Hc.
  rewrite !mean_int_repeat by lia. reflexivity.
Qed.

(** X5. When more than half of the pixels are copies of one colour and no
    other pixel falls into the bin of that colour, the function returns
    exactly that colour, wherever the copies stand in the array. *)
Theorem majority_colour_wins (pixels others : list pixel) (c : pixel)
  (a : nat) (B : Z) (f : Float64.t) :
  1 <= B <= 2097152 -> factor B = Ok f -> valid_pixel c ->
  Permutation pixels (repeat c a ++ others) ->
  (length others < a)%nat ->
  (forall p, In p others -> pixel_bins f B p <> pixel_bins f B c) ->
  dominant_color_of_pixels pixels B = Ok c.
Proof.
  intros HB Hf Hc HP Hlen Hiso.
  rewrite (dominant_color_perm _ _ B HP).
  apply (isolated_colour_wins f); try assumption; [lia |].
  intros x _. left.
  pose proof (count_le_length x (bin_indices f B others)) as Hle.
  unfold bin_indices in Hle at 2. rewrite length_map in Hle. lia.
Qed.

Lemma majority_colour_wins_witness :
  dominant_color_of_pixels
    [(0, 0, 255); (255, 0, 0); (255, 0, 0); (0, 255, 0); (255, 0, 0)] 4
  = Ok (255, 0, 0).
Proof.
  apply (majority_colour_wins _ [(0, 0, 255); (0, 255, 0)] (255, 0, 0) 3 4
           (Float64.div (Float64.of_int 256) (Float64.of_int 4))).
  - lia.
  - reflexivity.
  - cbn. unfold u8. lia.
  - apply (Permutation_cons_app
             [(255, 0, 0); (255, 0, 0); (255, 0, 0)] [(0, 255, 0)]
             (0, 0, 255)).
    apply perm_skip. apply perm_skip. apply perm_swap.
  - cbn. lia.
  - intros p [<- | [<- | []]]; vm_compute; discriminate.
Defined.

(** X6. Two colours with the same number of pixels, in different bins:
    the function returns the one whose bin index is the lower. *)
Theorem tie_goes_to_lower_bin (pixels : list pixel) (c1 c2 : pixel)
  (a : nat) (B : Z) (f : Float64.t) :
  1 <= B <= 2097152 -> factor B = Ok f -> valid_pixel c1 -> (0 < a)%nat ->
  Permutation pixels (repeat c1 a ++ repeat c2 a) ->
  bin_index B (pixel_bins f B c1) < bin_index B (pixel_bins f B c2) ->
  dominant_color_of_pixels pixels B = Ok c1.
Proof.
  intros HB Hf Hc Ha HP Hlt.
  rewrite (dominant_color_perm _ _ B HP).
  apply (isolated_colour_wins f); try assumption.
  - intros p Hp E. apply repeat_spec in Hp. subst p. rewrite E in Hlt. lia.
  - intros x Hx. right. unfold bin_indices in *.
    rewrite map_repeat in *. apply repeat_spec in Hx. subst x.
    rewrite count_repeat_same. split; [reflexivity | exact Hlt].
Qed.

Lemma tie_goes_to_lower_bin_witness :
  dominant_color_of_pixels
    [(255, 255, 255); (0, 0, 0); (0, 0, 0); (255, 255, 255)] 4
  = Ok (0, 0, 0).
Proof.
  apply (tie_goes_to_lower_bin _ (0, 0, 0) (255, 255, 255) 2 4
           (Float64.div (Float64.of_int 256) (Float64.of_int 4))).
  - lia.
  - reflexivity.
  - cbn. unfold u8. lia.
  - lia.
  - apply (Permutation_cons_app
             [(0, 0, 0); (0, 0, 0)] [(255, 255, 255)] (255, 255, 255)).
    apply Permutation_refl.
  - vm_compute. reflexivity.
Defined.

(** ** The outcome for every bin count *)

Lemma refine_returns (f : Float64.t) (B d : Z) (pixels : list pixel) :
  cluster_pixels f B d pixels <> [] ->
  exists rgb, refine f B d pixels = Ok rgb.
Proof.
  intros Hne. unfold refine.
  destruct (cluster_pixels f B d pixels) as [| p cl]; [contradiction |].
  cbn [map mean_int bind]. eexists. reflexivity.
Qed.

Lemma negative_bins_empty_cluster (f : Float64.t) (B d : Z)
  (pixels : list pixel) :
  B < 0 -> cluster_pixels f B d pixels = [].
Proof.
  intros HB. unfold cluster_pixels. apply filter_none. intros p _.
  destruct (bins_eqb _ _) eqn:E; [| reflexivity].
  apply bins_eqb_eq in E. unfold pixel_bins, decode in E.
  injection E as _ Eg _. exfalso.
  pose proof (Z.mod_neg_bound (d / B) B HB) as Hm.
  unfold channel_bin, clip in Eg. lia.
Qed.

(** X7. What the function does is settled by the sign of the bin count and
    by whether there is a pixel: a count of zero stops at the division of
    line 14; otherwise an array without pixel stops at [np.argmax]; with
    pixels a negative count masks every pixel out and the conversion of
    the NaN mean fails; with pixels and a positive count a colour is
    returned. *)
Theorem outcome_by_input (pixels : list pixel) (B : Z) :
  - 2097152 <= B <= 2097152 ->
  (B = 0 ->
   dominant_color_of_pixels pixels B = Raise ZeroDivisionError) /\
  (B <> 0 -> pixels = [] ->
   dominant_color_of_pixels pixels B
   = Raise (ValueError "attempt to get argmax of an empty sequence")) /\
  (B < 0 -> pixels <> [] ->
   dominant_color_of_pixels pixels B
   = Raise (ValueError "cannot convert float NaN to integer")) /\
  (0 < B -> pixels <> [] ->
   exists rgb, dominant_color_of_pixels pixels B = Ok rgb).
Proof.
  intros HB. unfold dominant_color_of_pixels.
  split; [| split; [| split]].
  - intros ->. reflexivity.
  - intros H0 ->. rewrite (factor_nonzero B H0). reflexivity.
  - intros Hneg Hne. rewrite (factor_nonzero B ltac:(lia)). cbn [bind].
    set (f := Float64.div (Float64.of_int 256) (Float64.of_int B)).
    destruct (select_In (bin_indices f B pixels)) as (d & -> & _).
    { intros E. apply map_eq_nil in E. contradiction. }
    cbn [bind]. unfold refine.
    rewrite (negative_bins_empty_cluster f B d pixels Hneg). reflexivity.
  - intros Hpos Hne. rewrite (factor_nonzero B ltac:(lia)). cbn [bind].
    set (f := Float64.div (Float64.of_int 256) (Float64.of_int B)).
    destruct (select_In (bin_indices f B pixels)) as (d & -> & Hd).
    { intros E. apply map_eq_nil in E. contradiction. }
    cbn [bind]. apply refine_returns.
    apply cluster_of_occupied_bin; [lia | exact Hd].
Qed.

Lemma outcome_by_input_witness :
  dominant_color_of_pixels [(1, 2, 3); (200, 100, 0)] (- 8)
  = Raise (ValueError "cannot convert float NaN to integer").
Proof.
  apply (proj1 (proj2 (proj2 (outcome_by_input
           [(1, 2, 3); (200, 100, 0)] (- 8) ltac:(lia))))).
  - lia.
  - discriminate.
Defined.

(** ** The order of the bin indices *)

(** X8. While [B^3] fits the 64-bit index, the index orders the bins as
    their triples are ordered: by the red bin first, then by the green
    bin, then by the blue bin.  The lowest index among tied bins is thus
    the bin with the least red, then green, then blue coordinate. *)
Theorem bin_index_lexicographic (B r1 g1 b1 r2 g2 b2 : Z) :
  1 <= B <= 2097152 ->
  in_lattice B (r1, g1, b1) -> in_lattice B (r2, g2, b2) ->
  (bin_index B (r1, g1, b1) < bin_index B (r2, g2, b2) <->
   r1 < r2 \/ (r1 = r2 /\ (g1 < g2 \/ (g1 = g2 /\ b1 < b2)))).
Proof.
  intros HB H1 H2.
  rewrite !bin_index_exact by assumption.
  destruct H1 as (Hr1 & Hg1 & Hb1). destruct H2 as (Hr2 & Hg2 & Hb2).
  assert (T1 : 0 <= g1 * B + b1 < B * B) by nia.
  assert (T2 : 0 <= g2 * B + b2 < B * B) by nia.
  destruct (Z.lt_trichotomy r1 r2) as [Hr | [Hr | Hr]].
  - assert ((r1 + 1) * (B * B) <= r2 * (B * B))
      by (apply Z.mul_le_mono_nonneg_r; nia).
    split; [intros _; left; exact Hr | intros _; lia].
  - subst r2.
    destruct (Z.lt_trichotomy g1 g2) as [Hg | [Hg | Hg]].
    + assert ((g1 + 1) * B <= g2 * B)
        by (apply Z.mul_le_mono_nonneg_r; lia).
      split; [intros _; right; split; [reflexivity | left; exact Hg] |
              intros _; lia].
    + subst g2. split; [intros K; right; split; [reflexivity |];
                        right; split; [reflexivity | lia] |
                        intros [K | [_ [K | [_ K]]]]; lia].
    + assert ((g2 + 1) * B <= g1 * B)
        by (apply Z.mul_le_mono_nonneg_r; lia).
      split; [intros K; lia | intros [K | [_ [K | [K _]]]]; lia].
  - assert ((r2 + 1) * (B * B) <= r1 * (B * B))
      by (apply Z.mul_le_mono_nonneg_r; nia).
    split; [intros K; lia | intros [K | [K _]]; lia].
Qed.

Lemma bin_index_lexicographic_witness :
  bin_index 8 (2, 7, 7) < bin_index 8 (3, 0, 0) <->
  2 < 3 \/ (2 = 3 /\ (7 < 0 \/ (7 = 0 /\ 7 < 0))).
Proof.
  apply (bin_index_lexicographic 8 2 7 7 3 0 0);
    unfold in_lattice; lia.
Defined.

(** ** The histogram *)

Lemma insert_present (x : Z) (us : list Z) :
  StronglySorted Z.lt us -> In x us -> insert x us = us.
Proof.
  induction 1 as [| y us Hs IH Hall]; intros Hin; [contradiction |].
  cbn [insert]. rewrite Forall_forall in Hall.
  destruct Hin as [-> | Hin].
  - rewrite Z.ltb_irrefl, Z.eqb_refl. reflexivity.
  - specialize (Hall x Hin).
    destruct (Z.ltb_spec x y); [lia |].
    destruct (Z.eqb_spec x y); [lia |].
    rewrite IH by assumption. reflexivity.
Qed.

Lemma insert_absent (x : Z) (us : list Z) :
  ~ In x us -> Permutation (insert x us) (x :: us).
Proof.
  induction us as [| y us IH]; intros Hout; cbn [insert].
  - reflexivity.
  - destruct (Z.ltb_spec x y); [reflexivity |].
    destruct (Z.eqb_spec x y) as [-> | Hne].
    + exfalso. apply Hout. left. reflexivity.
    + rewrite IH by (intros H'; apply Hout; right; exact H').
      apply perm_swap.
Qed.

Lemma count_cons (u x : Z) (xs : list Z) :
  count u (x :: xs) = count u xs + (if Z.eq_dec x u then 1 else 0).
Proof.
  unfold count. cbn [count_occ]. destruct (Z.eq_dec x u); lia.
Qed.

(** Adding one value to the array adds one to the counts summed over a
    list without repetition that holds the value, and nothing over one
    that does not. *)
Lemma counts_sum_cons (us : list Z) (x : Z) (xs : list Z) :
  StronglySorted Z.lt us ->
  sum (map (fun u => count u (x :: xs)) us)
  = sum (map (fun u => count u xs) us)
    + (if in_dec Z.eq_dec x us then 1 else 0).
Proof.
  unfold sum. induction 1 as [| y us Hs IH Hall]; cbn [map fold_right].
  - destruct (in_dec Z.eq_dec x []); [contradiction | lia].
  - rewrite IH, count_cons. rewrite Forall_forall in Hall.
    destruct (Z.eq_dec x y) as [-> | Hne].
    + destruct (in_dec Z.eq_dec y us) as [Hin | _];
        [specialize (Hall y Hin); lia |].
      destruct (in_dec Z.eq_dec y (y :: us)) as [_ | Hout];
        [lia | exfalso; apply Hout; left; reflexivity].
    + destruct (in_dec Z.eq_dec x us) as [Hin | Hout];
        destruct (in_dec Z.eq_dec x (y :: us)) as [Hin' | Hout'];
        try lia.
      * exfalso. apply Hout'. right. exact Hin.
      * exfalso. destruct Hin' as [E | Hin']; [congruence | contradiction].
Qed.

Lemma counts_sum_length (xs : list Z) :
  sum (map (fun u => count u xs) (unique_values xs))
  = Z.of_nat (length xs).
Proof.
  induction xs as [| x xs IH].
  - reflexivity.
  - cbn [unique_values fold_right]. fold (unique_values xs).
    pose proof (unique_values_sorted xs) as Hs.
    destruct (in_dec Z.eq_dec x (unique_values xs)) as [Hin | Hout].
    + rewrite (insert_present x _ Hs Hin).
      rewrite (counts_sum_cons _ x xs Hs), IH.
      destruct (in_dec Z.eq_dec x (unique_values xs));
        [cbn [length]; lia | contradiction].
    + rewrite (sum_perm _ _
                 (Permutation_map (fun u => count u (x :: xs))
                    (insert_absent x _ Hout))).
      cbn [map]. unfold sum at 1. cbn [fold_right].
      fold (sum (map (fun u => count u (x :: xs)) (unique_values xs))).
      rewrite (counts_sum_cons _ x xs Hs), IH, count_cons.
      rewrite (count_absent x xs)
        by (intros H; apply Hout, unique_values_In; exact H).
      destruct (in_dec Z.eq_dec x (unique_values xs)); [contradiction |].
      destruct (Z.eq_dec x x); [| congruence].
      cbn [length]. lia.
Qed.

(** X9. The histogram of line 29 lists the occupied bins once each in
    ascending order, gives every one of them a count of at least 1, and
    its counts add up to the number of pixels. *)
Theorem histogram_accounts_for_pixels (f : Float64.t) (B : Z)
  (pixels : list pixel) (unique_bins counts : list Z) :
  np_unique (bin_indices f B pixels) = (unique_bins, counts) ->
  StronglySorted Z.lt unique_bins /\
  (forall d, In d unique_bins <->
             exists p, In p pixels /\ bin_index B (pixel_bins f B p) = d) /\
  length counts = length unique_bins /\
  Forall (fun c => 1 <= c) counts /\
  sum counts = Z.of_nat (length pixels).
Proof.
  unfold np_unique. intros E. injection E as <- <-.
  split; [apply unique_values_sorted |]. split; [| split; [| split]].
  - intros d. rewrite unique_values_In. unfold bin_indices.
    rewrite in_map_iff. split; intros (p & H1 & H2); exists p; auto.
  - apply length_map.
  - apply Forall_map. apply Forall_forall. intros u Hu.
    apply count_pos. apply unique_values_In. exact Hu.
  - rewrite counts_sum_length. unfold bin_indices.
    rewrite length_map. reflexivity.
Qed.

Lemma histogram_accounts_for_pixels_witness :
  StronglySorted Z.lt [0; 63] /\
  (forall d, In d [0; 63] <->
     exists p, In p [(255, 255, 255); (0, 0, 0); (250, 250, 250)] /\
       bin_index 4
         (pixel_bins (Float64.div (Float64.of_int 256) (Float64.of_int 4))
            4 p) = d) /\
  length [1; 2] = length [0; 63] /\
  Forall (fun c => 1 <= c) [1; 2] /\
  sum [1; 2] = Z.of_nat (length [(255, 255, 255); (0, 0, 0); (250, 250, 250)]).
Proof.
  apply (histogram_accounts_for_pixels
           (Float64.div (Float64.of_int 256) (Float64.of_int 4)) 4
           [(255, 255, 255); (0, 0, 0); (250, 250, 250)]).
  vm_compute. reflexivity.
Defined.

(** ** Replicated pixels *)

Module ScalingFacts.
Import Float64 Float64Facts.

Lemma ratio_bracket_lt_absurd (p q E1 E2 : Z) :
  0 < p -> 0 < q -> ratio_bracket p q E1 -> ratio_bracket p q E2 ->
  E1 < E2 -> False.
Proof.
  intros Hp Hq [P1 N1] [P2 N2] Hlt.
  destruct (Z_lt_le_dec E1 0) as [Hn1 | Hp1];
    destruct (Z_lt_le_dec E2 0) as [Hn2 | Hp2]; try lia.
  - destruct (N1 Hn1) as [_ A]. destruct (N2 Hn2) as [B _].
    assert (2 ^ (- E2) <= 2 ^ (- E1 - 1)) by (apply Z.pow_le_mono_r; lia).
    nia.
  - destruct (N1 Hn1) as [_ A]. destruct (P2 Hp2) as [B _].
    assert (0 < 2 ^ (- E1 - 1)) by (apply Z.pow_pos_nonneg; lia).
    assert (0 < 2 ^ E2) by (apply Z.pow_pos_nonneg; lia).
    nia.
  - destruct (P1 Hp1) as [_ A]. destruct (P2 Hp2) as [B _].
    assert (2 ^ (E1 + 1) <= 2 ^ E2) by (apply Z.pow_le_mono_r; lia).
    nia.
Qed.

Lemma ratio_bracket_unique (p q E1 E2 : Z) :
  0 < p -> 0 < q -> ratio_bracket p q E1 -> ratio_bracket p q E2 -> E1 = E2.
Proof.
  intros Hp Hq H1 H2.
  destruct (Z.lt_trichotomy E1 E2) as [H | [H | H]]; [| exact H |].
  - exfalso. exact (ratio_bracket_lt_absurd p q E1 E2 Hp Hq H1 H2 H).
  - exfalso. exact (ratio_bracket_lt_absurd p q E2 E1 Hp Hq H2 H1 H).
Qed.

Lemma ratio_bracket_scaled (c p q E : Z) :
  0 < c -> ratio_bracket (c * p) (c * q) E -> ratio_bracket p q E.
Proof.
  intros Hc [P N]. split.
  - intros HE. specialize (P HE).
    assert (0 < 2 ^ E) by (apply Z.pow_pos_nonneg; lia).
    assert (0 < 2 ^ (E + 1)) by (apply Z.pow_pos_nonneg; lia).
    split.
    + apply (Z.mul_le_mono_pos_l _ _ c Hc). lia.
    + apply (Z.mul_lt_mono_pos_l c); [exact Hc | lia].
  - intros HE. specialize (N HE).
    split.
    + apply (Z.mul_le_mono_pos_l _ _ c Hc). lia.
    + apply (Z.mul_lt_mono_pos_l c); [exact Hc | lia].
Qed.

Lemma ilog2_ratio_scaled (c p q : Z) :
  0 < c -> 0 < p -> 0 < q ->
  ilog2_ratio (c * p) (c * q) = ilog2_ratio p q.
Proof.
  intros Hc Hp Hq.
  apply (ratio_bracket_unique p q); try assumption.
  - apply (ratio_bracket_scaled c); [assumption |].
    apply (ilog2_ratio_spec (c * p) (c * q)); nia.
  - apply (ilog2_ratio_spec p q); assumption.
Qed.

Lemma round_half_even_scaled (c a q : Z) :
  0 < c -> 0 < q ->
  round_half_even (c * a) (c * q) = round_half_even a q.
Proof.
  intros Hc Hq. rewrite !round_half_even_eq.
  rewrite Z.div_mul_cancel_l by lia.
  rewrite Z.mul_mod_distr_l by lia.
  replace (2 * (c * (a mod q))) with (c * (2 * (a mod q))) by ring.
  rewrite <- (Zmult_compare_compat_l (2 * (a mod q)) q c) by lia.
  reflexivity.
Qed.

Lemma div_pos_scaled (c p q : Z) :
  0 < c -> 0 < p -> 0 < q -> div_pos (c * p) (c * q) = div_pos p q.
Proof.
  intros Hc Hp Hq. unfold div_pos.
  rewrite (ilog2_ratio_scaled c p q Hc Hp Hq).
  destruct (Z.leb_spec 0 (52 - ilog2_ratio p q)); f_equal.
  - rewrite <- Z.mul_assoc. apply round_half_even_scaled; assumption.
  - rewrite <- Z.mul_assoc. apply round_half_even_scaled; [assumption |].
    assert (0 < 2 ^ (- (52 - ilog2_ratio p q)))
      by (apply Z.pow_pos_nonneg; lia).
    nia.
Qed.

(** The quotient of [c * s] by [c * n] is the quotient of [s] by [n]. *)
Lemma div_of_int_scaled (c s n : Z) :
  0 < c -> 0 <= s -> 0 < n ->
  div (of_int (c * s)) (of_int (c * n)) = div (of_int s) (of_int n).
Proof.
  intros Hc Hs Hn. unfold div, of_int. cbn [mant expo].
  assert (Hcs : 0 <= c * s) by nia. assert (Hcn : 0 < c * n) by nia.
  rewrite (Z.abs_eq (c * s)), (Z.abs_eq (c * n)), (Z.abs_eq s), (Z.abs_eq n)
    by lia.
  destruct (Z.eq_dec s 0) as [-> | Hs0].
  - rewrite Z.mul_0_r. reflexivity.
  - destruct (Z.eqb_spec (c * s) 0) as [? | _]; [nia |].
    destruct (Z.eqb_spec s 0) as [? | _]; [lia |].
    rewrite (Z.sgn_pos (c * s)), (Z.sgn_pos (c * n)), (Z.sgn_pos s),
      (Z.sgn_pos n) by nia.
    change (0 - 0) with 0. change (0 <=? 0) with true. cbv iota.
    change (2 ^ 0) with 1. rewrite !Z.mul_1_r.
    rewrite (div_pos_scaled c s n) by lia. reflexivity.
Qed.

End ScalingFacts.

Lemma concat_repeat_In {A : Type} (l : list A) (k : nat) (x : A) :
  (0 < k)%nat -> (In x (concat (repeat l k)) <-> In x l).
Proof.
  intros Hk. rewrite in_concat. split.
  - intros (l' & Hl' & Hx). apply repeat_spec in Hl'. subst l'. exact Hx.
  - intros Hx. exists l. split; [| exact Hx].
    destruct k; [lia | left; reflexivity].
Qed.

Lemma count_concat_repeat (x : Z) (l : list Z) (k : nat) :
  count x (concat (repeat l k)) = Z.of_nat k * count x l.
Proof.
  induction k as [| k IH]; cbn [repeat concat].
  - unfold count. cbn. lia.
  - rewrite count_app, IH. lia.
Qed.

Lemma sum_app (l1 l2 : list Z) : sum (l1 ++ l2) = sum l1 + sum l2.
Proof.
  unfold sum. induction l1 as [| x l1 IH]; cbn [app fold_right]; lia.
Qed.

Lemma sum_concat_repeat (l : list Z) (k : nat) :
  sum (concat (repeat l k)) = Z.of_nat k * sum l.
Proof.
  induction k as [| k IH]; cbn [repeat concat].
  - reflexivity.
  - rewrite sum_app, IH. lia.
Qed.

Lemma length_concat_repeat {A : Type} (l : list A) (k : nat) :
  length (concat (repeat l k)) = (k * length l)%nat.
Proof.
  induction k as [| k IH]; cbn [repeat concat]; [reflexivity |].
  rewrite length_app, IH. lia.
Qed.

Lemma map_concat_repeat {A B : Type} (g : A -> B) (l : list A) (k : nat) :
  map g (concat (repeat l k)) = concat (repeat (map g l) k).
Proof. rewrite concat_map, map_repeat. reflexivity. Qed.

Lemma filter_concat_repeat {A : Type} (g : A -> bool) (l : list A)
  (k : nat) :
  filter g (concat (repeat l k)) = concat (repeat (filter g l) k).
Proof.
  induction k as [| k IH]; cbn [repeat concat]; [reflexivity |].
  rewrite filter_app, IH. reflexivity.
Qed.

Lemma mean_int_concat_repeat (col : list Z) (k : nat) :
  (0 < k)%nat -> Forall (fun v => 0 <= v) col ->
  mean_int (concat (repeat col k)) = mean_int col.
Proof.
  intros Hk Hall.
  destruct col as [| x col].
  - replace (concat (repeat [] k)) with (@nil Z); [reflexivity |].
    clear Hk. induction k; cbn; auto.
  - assert (Hs : 0 <= sum (x :: col)).
    { clear Hk. unfold sum. induction Hall; cbn [fold_right]; lia. }
    destruct (concat (repeat (x :: col) k)) as [| y t] eqn:E.
    + destruct k; [lia | discriminate E].
    + rewrite <- E. unfold mean_int at 1. rewrite E, <- E.
      rewrite sum_concat_repeat, length_concat_repeat, Nat2Z.inj_mul.
      unfold mean_int. f_equal. f_equal.
      apply ScalingFacts.div_of_int_scaled; try lia. cbn [length]. lia.
Qed.

Lemma first_maximum_scaled (cs : list Z) (i : nat) (k : Z) :
  0 < k -> first_maximum cs i -> first_maximum (map (Z.mul k) cs) i.
Proof.
  intros Hk (Hi & Hmax & Hfirst).
  assert (Hn : forall j, (j < length cs)%nat ->
             nth j (map (Z.mul k) cs) 0 = k * nth j cs 0).
  { intros j Hj. rewrite (nth_indep _ 0 (k * 0))
      by (rewrite length_map; exact Hj).
    apply (map_nth (Z.mul k)). }
  unfold first_maximum. rewrite length_map.
  split; [exact Hi |]. split.
  - intros j Hj. rewrite !Hn by assumption. specialize (Hmax j Hj). nia.
  - intros j Hj. rewrite !Hn by lia. specialize (Hfirst j Hj). nia.
Qed.

Lemma select_concat_repeat (idx : list Z) (k : nat) :
  (0 < k)%nat -> select (concat (repeat idx k)) = select idx.
Proof.
  intros Hk. unfold select, np_unique.
  assert (Eu : unique_values (concat (repeat idx k)) = unique_values idx).
  { apply sorted_unique; try apply unique_values_sorted.
    intros x. rewrite !unique_values_In. apply concat_repeat_In. exact Hk. }
  rewrite Eu.
  assert (Ec : map (fun u => count u (concat (repeat idx k)))
                 (unique_values idx)
               = map (Z.mul (Z.of_nat k))
                   (map (fun u => count u idx) (unique_values idx))).
  { rewrite map_map. apply map_ext. intros u.
    apply count_concat_repeat. }
  rewrite Ec.
  pose proof (np_argmax_spec (map (fun u => count u idx) (unique_values idx)))
    as Hspec.
  destruct (np_argmax (map (fun u => count u idx) (unique_values idx)))
    as [i | e].
  - rewrite (np_argmax_first_maximum _ i
               (first_maximum_scaled _ i (Z.of_nat k) ltac:(lia) Hspec)).
    reflexivity.
  - destruct Hspec as [-> ->]. reflexivity.
Qed.

(** X10. An array that holds every pixel of an image the same number of
    times, in any order, gives the result of the image itself: enlarging
    an image by repeating its pixels does not move the dominant
    colour. *)
Theorem replication_invariant (pixels pixels' : list pixel) (k : nat)
  (B : Z) :
  (0 < k)%nat -> Forall valid_pixel pixels ->
  Permutation pixels' (concat (repeat pixels k)) ->
  dominant_color_of_pixels pixels' B = dominant_color_of_pixels pixels B.
Proof.
  intros Hk Hall HP.
  rewrite (dominant_color_perm _ _ B HP).
  unfold dominant_color_of_pixels.
  destruct (factor B) as [f | e]; cbn [bind]; [| reflexivity].
  unfold bin_indices. rewrite map_concat_repeat.
  rewrite (select_concat_repeat _ k Hk).
  destruct (select _) as [d | e]; cbn [bind]; [| reflexivity].
  unfold refine, cluster_pixels.
  rewrite filter_concat_repeat, !map_concat_repeat.
  pose proof (cluster_valid f B d pixels Hall) as Hc.
  unfold cluster_pixels in Hc.
  assert (Hcol : forall ch : pixel -> Z,
             (forall p, valid_pixel p -> u8 (ch p)) ->
             Forall (fun v => 0 <= v)
               (map ch (filter (fun p => bins_eqb (pixel_bins f B p)
                                                 (decode B d)) pixels))).
  { intros ch Hch. apply Forall_map.
    eapply Forall_impl; [| exact Hc].
    intros p Hp. apply Hch in Hp. unfold u8 in Hp. lia. }
  rewrite !mean_int_concat_repeat by (auto using red_u8, green_u8, blue_u8).
  reflexivity.
Qed.

Lemma replication_invariant_witness :
  dominant_color_of_pixels
    [(9, 9, 9); (200, 0, 0); (9, 9, 9); (10, 9, 9); (200, 0, 0); (10, 9, 9)]
    8
  = dominant_color_of_pixels [(9, 9, 9); (200, 0, 0); (10, 9, 9)] 8.
Proof.
  apply (replication_invariant [(9, 9, 9); (200, 0, 0); (10, 9, 9)] _ 2 8).
  - lia.
  - repeat constructor; unfold u8; lia.
  - cbn [repeat concat app].
    apply perm_skip. apply perm_skip.
    apply (Permutation_cons_app [(10, 9, 9)] [(200, 0, 0); (10, 9, 9)]
             (9, 9, 9)).
    apply (Permutation_cons_app [] [(200, 0, 0); (10, 9, 9)] (10, 9, 9)).
    apply Permutation_refl.
Defined.

(** ** The preview size *)

Module PreviewFacts.
Import Float64 Float64Facts Float64Bounds Float64Ops.

(** The scale factor [300 / d] as a significand and a number of
    fractional bits. *)
Lemma scale_shape (d : Z) :
  1 <= d ->
  exists m k,
    div (of_int 300) (of_int d) = mk m (- k) /\
    0 <= k /\ 2 ^ 52 <= m /\
    2 * (m * d) <= 600 * 2 ^ k + d /\
    600 * 2 ^ k - d <= 2 * (m * d) /\
    d * 2 ^ 52 <= 300 * 2 ^ k.
Proof.
  intros Hd.
  assert (HE : ilog2_ratio 300 d <= 52)
    by (apply ilog2_ratio_52; lia).
  destruct (div_of_int_pos 300 d ltac:(lia) ltac:(lia)) as [E | ?]; [| lia].
  pose proof (scaled_bracket 300 d ltac:(lia) ltac:(lia) HE) as [Hb _].
  set (k := 52 - ilog2_ratio 300 d) in *.
  exists (round_half_even (300 * 2 ^ k) d), k.
  split; [exact E |]. split; [lia |].
  pose proof (round_half_even_near (300 * 2 ^ k) d ltac:(lia)) as Hnear.
  split; [apply round_half_even_ge; lia |].
  repeat split; lia.
Qed.

Lemma pow2_split (a b : Z) :
  0 <= a -> 0 <= b -> 2 ^ (a + b) = 2 ^ a * 2 ^ b /\ 0 < 2 ^ a /\ 0 < 2 ^ b.
Proof.
  intros Ha Hb. rewrite Z.pow_add_r by lia.
  repeat split; try reflexivity; apply Z.pow_pos_nonneg; lia.
Qed.

(** [ltb] on two values with fractional bits is the comparison of the
    cross products. *)
Lemma ltb_cross (m1 k1 m2 k2 : Z) :
  0 <= k1 -> 0 <= k2 ->
  ltb (mk m1 (- k1)) (mk m2 (- k2)) = true <-> m1 * 2 ^ k2 < m2 * 2 ^ k1.
Proof.
  intros H1 H2. unfold ltb. cbn [mant expo]. rewrite Z.ltb_lt.
  destruct (Z.le_ge_cases k1 k2) as [Hle | Hge].
  - rewrite Z.min_r by lia.
    replace (- k1 - - k2) with (k2 - k1) by lia.
    replace (- k2 - - k2) with 0 by lia. change (2 ^ 0) with 1.
    destruct (pow2_split (k2 - k1) k1 ltac:(lia) H1) as (E & P1 & P2).
    replace (k2 - k1 + k1) with k2 in E by lia. rewrite E. nia.
  - rewrite Z.min_l by lia.
    replace (- k2 - - k1) with (k1 - k2) by lia.
    replace (- k1 - - k1) with 0 by lia. change (2 ^ 0) with 1.
    destruct (pow2_split (k1 - k2) k2 ltac:(lia) H2) as (E & P1 & P2).
    replace (k1 - k2 + k2) with k1 in E by lia. rewrite E. nia.
Qed.

(** [py_min] returns one of its arguments, and a value that exceeds
    neither. *)
Lemma py_min_shape (m1 k1 m2 k2 : Z) :
  0 <= k1 -> 0 <= k2 ->
  exists m k,
    py_min (mk m1 (- k1)) (mk m2 (- k2)) = mk m (- k) /\
    ((m = m1 /\ k = k1) \/ (m = m2 /\ k = k2)) /\
    m * 2 ^ k1 <= m1 * 2 ^ k /\ m * 2 ^ k2 <= m2 * 2 ^ k.
Proof.
  intros H1 H2. unfold py_min.
  pose proof (ltb_cross m2 k2 m1 k1 H2 H1) as Hc.
  destruct (ltb (mk m2 (- k2)) (mk m1 (- k1))).
  - exists m2, k2. split; [reflexivity |]. split; [right; auto |].
    pose proof (proj1 Hc eq_refl). lia.
  - exists m1, k1. split; [reflexivity |]. split; [left; auto |].
    assert (~ m2 * 2 ^ k1 < m1 * 2 ^ k2)
      by (intros H; apply Hc in H; discriminate).
    lia.
Qed.

(** The product of a positive integer and a positive value with
    fractional bits. *)
Lemma mul_shape (n m k : Z) :
  1 <= n -> 0 < m -> 0 <= k -> n * m < 2 ^ 53 * 2 ^ k ->
  exists k',
    0 <= k' /\ k' = 52 - ilog2_ratio (n * m) (2 ^ k) /\
    mul (of_int n) (mk m (- k))
    = mk (round_half_even (n * m * 2 ^ k') (2 ^ k)) (- k').
Proof.
  intros Hn Hm Hk Hlt.
  assert (Hq : 0 < 2 ^ k) by (apply Z.pow_pos_nonneg; lia).
  assert (Hp : 0 < n * m) by nia.
  assert (HE : ilog2_ratio (n * m) (2 ^ k) <= 52)
    by (apply ilog2_ratio_52; assumption).
  exists (52 - ilog2_ratio (n * m) (2 ^ k)).
  split; [lia |]. split; [reflexivity |].
  unfold mul, of_int. cbn [mant expo].
  rewrite (Z.abs_eq n), (Z.abs_eq m) by lia.
  rewrite (Z.sgn_pos n), (Z.sgn_pos m) by lia.
  destruct (Z.eqb_spec (n * m) 0) as [? | _]; [lia |].
  replace (0 + - k) with (- k) by lia.
  assert (Er : (if 0 <=? - k then div_pos (n * m * 2 ^ (- k)) 1
                else div_pos (n * m) (2 ^ (- - k)))
               = div_pos (n * m) (2 ^ k)).
  { destruct (Z.leb_spec 0 (- k)).
    - assert (k = 0) by lia. subst k. cbn. rewrite Z.mul_1_r. reflexivity.
    - rewrite Z.opp_involutive. reflexivity. }
  rewrite Er. unfold div_pos. cbn [mant expo].
  destruct (Z.leb_spec 0 (52 - ilog2_ratio (n * m) (2 ^ k))); [| lia].
  rewrite Z.mul_1_l. reflexivity.
Qed.

Lemma to_int_mul_le (n m k bound j : Z) :
  1 <= n -> 0 < m -> 0 <= k -> 0 <= j -> 0 <= bound < 2 ^ 53 ->
  n * m * 2 ^ j <= bound * 2 ^ k ->
  0 <= to_int (mul (of_int n) (mk m (- k))) <= bound / 2 ^ j.
Proof.
  intros Hn Hm Hk Hj Hb Hle.
  assert (Hq : 0 < 2 ^ k) by (apply Z.pow_pos_nonneg; lia).
  assert (Hj2 : 0 < 2 ^ j) by (apply Z.pow_pos_nonneg; lia).
  assert (Hp : 0 < n * m) by nia.
  assert (Hlt : n * m < 2 ^ 53 * 2 ^ k) by nia.
  destruct (mul_shape n m k Hn Hm Hk Hlt) as (k' & Hk' & Ek' & ->).
  assert (HE : ilog2_ratio (n * m) (2 ^ k) <= 52 - j)
    by (apply (ilog2_ratio_upper _ _ bound j); lia).
  split.
  - apply (to_int_rounded_ge (n * m) (2 ^ k) k' 0); lia.
  - apply to_int_rounded_le; lia.
Qed.

Lemma to_int_mul_ge (n m k lo : Z) :
  1 <= n -> 0 < m -> 0 <= k -> 0 <= lo ->
  lo * 2 ^ k <= n * m -> n * m < 2 ^ 53 * 2 ^ k ->
  lo <= to_int (mul (of_int n) (mk m (- k))).
Proof.
  intros Hn Hm Hk Hlo Hle Hlt.
  assert (Hq : 0 < 2 ^ k) by (apply Z.pow_pos_nonneg; lia).
  destruct (mul_shape n m k Hn Hm Hk Hlt) as (k' & Hk' & _ & ->).
  apply to_int_rounded_ge; solve [lia | nia].
Qed.

(** A bound on [n] times one value passes to [n] times a smaller one. *)
Lemma bound_transfers (n m k m1 k1 c bound : Z) :
  0 <= n -> 0 <= c -> 0 <= k -> 0 <= k1 ->
  m * 2 ^ k1 <= m1 * 2 ^ k ->
  n * m1 * c <= bound * 2 ^ k1 ->
  n * m * c <= bound * 2 ^ k.
Proof.
  intros Hn Hc Hk Hk1 Hmin Hb.
  assert (H1 : 0 < 2 ^ k1) by (apply Z.pow_pos_nonneg; lia).
  assert (H2 : 0 < 2 ^ k) by (apply Z.pow_pos_nonneg; lia).
  apply (Z.mul_le_mono_pos_r _ _ (2 ^ k1) H1).
  assert (n * c * (m * 2 ^ k1) <= n * c * (m1 * 2 ^ k))
    by (apply Z.mul_le_mono_nonneg_l; nia).
  assert (n * m1 * c * 2 ^ k <= bound * 2 ^ k1 * 2 ^ k)
    by (apply Z.mul_le_mono_nonneg_r; lia).
  nia.
Qed.

End PreviewFacts.

Lemma preview_size_bounds (iw ih : Z) :
  1 <= iw < 2 ^ 31 -> 1 <= ih < 2 ^ 31 ->
  exists w h,
    preview_size iw ih = Ok (w, h) /\
    0 <= w <= 300 /\ 0 <= h <= 300 /\ (299 <= w \/ 299 <= h) /\
    (300 * ih < iw -> h = 0) /\ (300 * iw < ih -> w = 0).
Proof.
  intros Hw Hh. unfold preview_size.
  destruct (Z.eqb_spec iw 0) as [? | _]; [lia |].
  destruct (Z.eqb_spec ih 0) as [? | _]; [lia |].
  destruct (PreviewFacts.scale_shape iw ltac:(lia))
    as (m1 & k1 & -> & Hk1 & Hm1 & Hup1 & Hlo1 & Hb1).
  destruct (PreviewFacts.scale_shape ih ltac:(lia))
    as (m2 & k2 & -> & Hk2 & Hm2 & Hup2 & Hlo2 & Hb2).
  destruct (PreviewFacts.py_min_shape m1 k1 m2 k2 Hk1 Hk2)
    as (m & k & -> & Hor & Hle1 & Hle2).
  assert (Hm : 0 < m /\ 0 <= k) by (destruct Hor as [[-> ->] | [-> ->]]; lia).
  destruct Hm as [Hm Hk].
  assert (X1 : 0 < 2 ^ k1) by (apply Z.pow_pos_nonneg; lia).
  assert (X2 : 0 < 2 ^ k2) by (apply Z.pow_pos_nonneg; lia).
  assert (U1 : iw * m1 * 2 <= 601 * 2 ^ k1) by lia.
  assert (U2 : ih * m2 * 2 <= 601 * 2 ^ k2) by lia.
  assert (W : iw * m * 2 ^ 1 <= 601 * 2 ^ k).
  { change (2 ^ 1) with 2.
    apply (PreviewFacts.bound_transfers iw m k m1 k1 2 601); lia. }
  assert (H : ih * m * 2 ^ 1 <= 601 * 2 ^ k).
  { change (2 ^ 1) with 2.
    apply (PreviewFacts.bound_transfers ih m k m2 k2 2 601); lia. }
  pose proof (PreviewFacts.to_int_mul_le iw m k 601 1
                ltac:(lia) Hm Hk ltac:(lia) ltac:(lia) W) as Bw.
  pose proof (PreviewFacts.to_int_mul_le ih m k 601 1
                ltac:(lia) Hm Hk ltac:(lia) ltac:(lia) H) as Bh.
  change (601 / 2 ^ 1) with 300 in Bw, Bh.
  eexists _, _. split; [reflexivity |].
  split; [exact Bw |]. split; [exact Bh |]. split; [| split].
  - destruct Hor as [[-> ->] | [-> ->]].
    + left. apply PreviewFacts.to_int_mul_ge; lia.
    + right. apply PreviewFacts.to_int_mul_ge; lia.
  - intros Hflat.
    assert (P1 : iw * m1 <= (2 ^ 31 - 1) * m1)
      by (apply Z.mul_le_mono_nonneg_r; lia).
    assert (R1 : (300 * ih + 1) * m1 <= iw * m1)
      by (apply Z.mul_le_mono_nonneg_r; lia).
    assert (T : ih * m1 * 2 ^ 33 <= (2 ^ 33 - 1) * 2 ^ k1) by lia.
    assert (T' : ih * m * 2 ^ 33 <= (2 ^ 33 - 1) * 2 ^ k)
      by (apply (PreviewFacts.bound_transfers ih m k m1 k1); lia).
    pose proof (PreviewFacts.to_int_mul_le ih m k (2 ^ 33 - 1) 33
                  ltac:(lia) Hm Hk ltac:(lia) ltac:(lia) T') as Z0.
    change ((2 ^ 33 - 1) / 2 ^ 33) with 0 in Z0. lia.
  - intros Htall.
    assert (P2 : ih * m2 <= (2 ^ 31 - 1) * m2)
      by (apply Z.mul_le_mono_nonneg_r; lia).
    assert (R2 : (300 * iw + 1) * m2 <= ih * m2)
      by (apply Z.mul_le_mono_nonneg_r; lia).
    assert (T : iw * m2 * 2 ^ 33 <= (2 ^ 33 - 1) * 2 ^ k2) by lia.
    assert (T' : iw * m * 2 ^ 33 <= (2 ^ 33 - 1) * 2 ^ k)
      by (apply (PreviewFacts.bound_transfers iw m k m2 k2); lia).
    pose proof (PreviewFacts.to_int_mul_le iw m k (2 ^ 33 - 1) 33
                  ltac:(lia) Hm Hk ltac:(lia) ltac:(lia) T') as Z0.
    change ((2 ^ 33 - 1) / 2 ^ 33) with 0 in Z0. lia.
Qed.

(** X11. For an image of at least one pixel each way, the preview size that
    [on_open] computes fits the box of 300 by 300, and one of its sides
    is 299 or 300 pixels long. *)
Theorem preview_fits_box (iw ih : Z) :
  1 <= iw < 2 ^ 31 -> 1 <= ih < 2 ^ 31 ->
  exists w h,
    preview_size iw ih = Ok (w, h) /\
    0 <= w <= 300 /\ 0 <= h <= 300 /\ (299 <= w \/ 299 <= h).
Proof.
  intros Hw Hh.
  destruct (preview_size_bounds iw ih Hw Hh) as (w & h & E & B).
  exists w, h. tauto.
Qed.

Lemma preview_fits_box_witness :
  exists w h,
    preview_size 4622 3753 = Ok (w, h) /\
    0 <= w <= 300 /\ 0 <= h <= 300 /\ (299 <= w \/ 299 <= h).
Proof.
  apply (preview_fits_box 4622 3753); lia.
Defined.

(** X12. An image more than 300 times as wide as it is high gets a preview
    height of 0, and one more than 300 times as high as wide a preview
    width of 0: the size handed to [img.Scale] is then degenerate. *)
Theorem preview_collapses (iw ih : Z) :
  1 <= iw < 2 ^ 31 -> 1 <= ih < 2 ^ 31 ->
  (300 * ih < iw ->
   exists w, preview_size iw ih = Ok (w, 0) /\ 299 <= w <= 300) /\
  (300 * iw < ih ->
   exists h, preview_size iw ih = Ok (0, h) /\ 299 <= h <= 300).
Proof.
  intros Hw Hh.
  destruct (preview_size_bounds iw ih Hw Hh)
    as (w & h & E & Bw & Bh & Hor & Hflat & Htall).
  split.
  - intros H. specialize (Hflat H). subst h. exists w.
    split; [exact E | lia].
  - intros H. specialize (Htall H). subst w. exists h.
    split; [exact E | lia].
Qed.

Lemma preview_collapses_witness :
  exists w, preview_size 1205 4 = Ok (w, 0) /\ 299 <= w <= 300.
Proof.
  apply (proj1 (preview_collapses 1205 4 ltac:(lia) ltac:(lia))). lia.
Defined.

Module AspectFacts.
Import Float64 Float64Facts Float64Bounds Float64Ops PreviewFacts.

(** The truncated product against the exact one: it is not above it by
    more than 2^-44 and less than 1 + 2^-44 below it. *)
Lemma to_int_mul_near (n m k : Z) :
  1 <= n -> 0 < m -> 0 <= k -> n * m * 2 <= 601 * 2 ^ k ->
  let w := to_int (mul (of_int n) (mk m (- k))) in
  w * 2 ^ k * 2 ^ 44 <= n * m * 2 ^ 44 + 2 ^ k /\
  n * m * 2 ^ 44 < (w + 1) * 2 ^ k * 2 ^ 44 + 2 ^ k.
Proof.
  intros Hn Hm Hk Hle.
  assert (Hq : 0 < 2 ^ k) by (apply Z.pow_pos_nonneg; lia).
  assert (Hp : 0 < n * m) by nia.
  assert (Hlt : n * m < 2 ^ 53 * 2 ^ k) by nia.
  destruct (mul_shape n m k Hn Hm Hk Hlt) as (k' & Hk' & Ek' & ->).
  assert (HE : ilog2_ratio (n * m) (2 ^ k) <= 52 - 43).
  { apply (ilog2_ratio_upper _ _ (601 * 2 ^ 42) 43); lia. }
  assert (Hk43 : 43 <= k') by lia.
  set (r := round_half_even (n * m * 2 ^ k') (2 ^ k)).
  assert (Hr0 : 0 <= r)
    by (apply round_half_even_nonneg; [| lia];
        assert (0 < 2 ^ k') by (apply Z.pow_pos_nonneg; lia); nia).
  pose proof (round_half_even_near (n * m * 2 ^ k') (2 ^ k) Hq) as Hnear.
  fold r in Hnear.
  rewrite to_int_scaled by lia. cbv zeta.
  assert (H2k' : 0 < 2 ^ k') by (apply Z.pow_pos_nonneg; lia).
  pose proof (Z.div_mod r (2 ^ k') ltac:(lia)) as Ediv.
  pose proof (Z.mod_pos_bound r (2 ^ k') H2k') as Hmod.
  set (w := r / 2 ^ k') in *.
  assert (E44 : 2 ^ k' = 2 ^ 43 * 2 ^ (k' - 43))
    by (rewrite <- Z.pow_add_r by lia; f_equal; lia).
  assert (Hs : 0 < 2 ^ (k' - 43)) by (apply Z.pow_pos_nonneg; lia).
  set (s := 2 ^ (k' - 43)) in *.
  set (Q := 2 ^ k) in *. set (P := n * m) in *.
  change (2 ^ 44) with (2 * 2 ^ 43).
  assert (A : 2 * (w * 2 ^ k' * Q) <= 2 * (P * 2 ^ k') + Q) by nia.
  assert (B : 2 * (P * 2 ^ k') - Q < 2 * ((w + 1) * 2 ^ k' * Q)) by nia.
  rewrite E44 in A, B.
  split.
  - apply (Z.mul_le_mono_pos_r _ _ s Hs). nia.
  - apply (Z.mul_lt_mono_pos_r s _ _ Hs). nia.
Qed.

End AspectFacts.

(** X13. The preview keeps the proportions of the image up to one pixel:
    with [(w, h)] the size computed for an image of [iw] by [ih] pixels,
    [w * ih] and [h * iw] differ by at most [iw] one way and [ih] the
    other. *)
Theorem preview_keeps_aspect_ratio (iw ih : Z) :
  1 <= iw < 2 ^ 31 -> 1 <= ih < 2 ^ 31 ->
  exists w h,
    preview_size iw ih = Ok (w, h) /\
    - ih <= w * ih - h * iw <= iw.
Proof.
  intros Hw Hh. unfold preview_size.
  destruct (Z.eqb_spec iw 0) as [? | _]; [lia |].
  destruct (Z.eqb_spec ih 0) as [? | _]; [lia |].
  destruct (PreviewFacts.scale_shape iw ltac:(lia))
    as (m1 & k1 & -> & Hk1 & Hm1 & Hup1 & Hlo1 & Hb1).
  destruct (PreviewFacts.scale_shape ih ltac:(lia))
    as (m2 & k2 & -> & Hk2 & Hm2 & Hup2 & Hlo2 & Hb2).
  destruct (PreviewFacts.py_min_shape m1 k1 m2 k2 Hk1 Hk2)
    as (m & k & -> & Hor & Hle1 & Hle2).
  assert (Hm : 0 < m /\ 0 <= k) by (destruct Hor as [[-> ->] | [-> ->]]; lia).
  destruct Hm as [Hm Hk].
  assert (X1 : 0 < 2 ^ k1) by (apply Z.pow_pos_nonneg; lia).
  assert (X2 : 0 < 2 ^ k2) by (apply Z.pow_pos_nonneg; lia).
  assert (Q0 : 0 < 2 ^ k) by (apply Z.pow_pos_nonneg; lia).
  assert (W : iw * m * 2 <= 601 * 2 ^ k)
    by (apply (PreviewFacts.bound_transfers iw m k m1 k1 2 601); lia).
  assert (H : ih * m * 2 <= 601 * 2 ^ k)
    by (apply (PreviewFacts.bound_transfers ih m k m2 k2 2 601); lia).
  pose proof (AspectFacts.to_int_mul_near iw m k ltac:(lia) Hm Hk W)
    as [Aw Bw].
  pose proof (AspectFacts.to_int_mul_near ih m k ltac:(lia) Hm Hk H)
    as [Ah Bh].
  cbv zeta in Aw, Bw, Ah, Bh.
  set (w := Float64.to_int
              (Float64Ops.mul (Float64.of_int iw) (Float64.mk m (- k)))) in *.
  set (h := Float64.to_int
              (Float64Ops.mul (Float64.of_int ih) (Float64.mk m (- k)))) in *.
  exists w, h. split; [reflexivity |].
  set (Q := 2 ^ k) in *.
  assert (C44 : 2 ^ 44 = 17592186044416) by reflexivity.
  rewrite C44 in *.
  assert (U : (w * ih - h * iw - iw) * Q * 17592186044416 < (iw + ih) * Q).
  { assert (ih * (w * Q * 17592186044416)
            <= ih * (iw * m * 17592186044416 + Q))
      by (apply Z.mul_le_mono_nonneg_l; lia).
    assert (iw * (ih * m * 17592186044416)
            < iw * ((h + 1) * Q * 17592186044416 + Q))
      by (apply Z.mul_lt_mono_pos_l; lia).
    lia. }
  assert (L : (h * iw - w * ih - ih) * Q * 17592186044416 < (iw + ih) * Q).
  { assert (iw * (h * Q * 17592186044416)
            <= iw * (ih * m * 17592186044416 + Q))
      by (apply Z.mul_le_mono_nonneg_l; lia).
    assert (ih * (iw * m * 17592186044416)
            < ih * ((w + 1) * Q * 17592186044416 + Q))
      by (apply Z.mul_lt_mono_pos_l; lia).
    lia. }
  assert (S : (iw + ih) * Q <= 4294967296 * Q)
    by (apply Z.mul_le_mono_nonneg_r; lia).
  split.
  - destruct (Z_le_gt_dec (- ih) (w * ih - h * iw)) as [? | Hgt];
      [assumption | exfalso].
    assert (1 * (Q * 17592186044416)
            <= (h * iw - w * ih - ih) * (Q * 17592186044416))
      by (apply Z.mul_le_mono_nonneg_r; lia).
    lia.
  - destruct (Z_le_gt_dec (w * ih - h * iw) iw) as [? | Hgt];
      [assumption | exfalso].
    assert (1 * (Q * 17592186044416)
            <= (w * ih - h * iw - iw) * (Q * 17592186044416))
      by (apply Z.mul_le_mono_nonneg_r; lia).
    lia.
Qed.

Lemma preview_keeps_aspect_ratio_witness :
  exists w h,
    preview_size 4622 3753 = Ok (w, h) /\
    - 3753 <= w * 3753 - h * 4622 <= 4622.
Proof.
  apply (preview_keeps_aspect_ratio 4622 3753); lia.
Defined.
